(** * session-sqlstore: a shallow embedding of the SQL session store

    The development follows the Go package [sqlstore]: the store itself
    ([New], [SQLStore_New], [Reload], [Save], [insert], [save], [load],
    [Delete], [Remove], [MaxAge]) and its background sweeper
    ([deleteExpired], [Cleanup], and the steps of the goroutine [cleanup]
    and of a caller of [StopCleanup] as the events of [fire]).

    Conventions.
    - Go [int64] values are integers of [Z]; the one place where the code
      does arithmetic on them ([nowTs + maxAge]) goes through [add64],
      which wraps around like the machine addition.
    - The session value map is a [gmap] from string keys to dynamically
      typed values ([any]); the table is a [gmap] from the primary key to
      the row.
    - Every operation that reads the clock takes the value it reads as the
      argument [now].
    - The collaborators the package only calls (gob serialisation, the
      cookie codec, the library constants) are the fields of the class
      [Collaborators]. *)

From Stdlib Require Import ZArith Lia Ascii String List.
From Stdlib Require Strings.Byte.
From stdpp Require Import base option list gmap strings.

Local Open Scope Z_scope.

(** ** Machine integers *)

Definition wrap64 (z : Z) : Z := (z + 2 ^ 63) mod 2 ^ 64 - 2 ^ 63.

Definition add64 (a b : Z) : Z := wrap64 (a + b).

Definition int64_range (z : Z) : Prop := - 2 ^ 63 <= z < 2 ^ 63.

(** ** encoding/base32, the standard encoding with padding

    Written after the block-wise form of [Encoding.Encode]: [quantum] is
    its [switch] on the length of the block, with the fall-through cases,
    which cuts a block of at most five source bytes into eight 5-bit
    groups; [pad] is the padding written over the tail of a short final
    block. *)

Definition encodeStd : list ascii :=
  list_ascii_of_string "ABCDEFGHIJKLMNOPQRSTUVWXYZ234567".

Definition padChar : ascii := "="%char.

Definition encChar (i : Z) : ascii := nth (Z.to_nat i) encodeStd Ascii.zero.

Definition byteZ (b : Byte.byte) : Z := Z.of_N (Byte.to_N b).

Definition is_byte (x : Z) : Prop := 0 <= x < 256.

Definition quantum (src : list Z) : list Z :=
  let n := length src in
  let s i := nth i src 0 in
  let b7 := if (5 <=? n)%nat then Z.land (s 4%nat) 31 else 0 in
  let b6 := if (5 <=? n)%nat then Z.shiftr (s 4%nat) 5 else 0 in
  let b6 := if (4 <=? n)%nat then Z.lor b6 (Z.land (Z.shiftl (s 3%nat) 3) 31) else b6 in
  let b5 := if (4 <=? n)%nat then Z.land (Z.shiftr (s 3%nat) 2) 31 else 0 in
  let b4 := if (4 <=? n)%nat then Z.shiftr (s 3%nat) 7 else 0 in
  let b4 := if (3 <=? n)%nat then Z.lor b4 (Z.land (Z.shiftl (s 2%nat) 1) 31) else b4 in
  let b3 := if (3 <=? n)%nat then Z.land (Z.shiftr (s 2%nat) 4) 31 else 0 in
  let b3 := if (2 <=? n)%nat then Z.lor b3 (Z.land (Z.shiftl (s 1%nat) 4) 31) else b3 in
  let b2 := if (2 <=? n)%nat then Z.land (Z.shiftr (s 1%nat) 1) 31 else 0 in
  let b1 := if (2 <=? n)%nat then Z.land (Z.shiftr (s 1%nat) 6) 31 else 0 in
  let b1 := if (1 <=? n)%nat then Z.lor b1 (Z.land (Z.shiftl (s 0%nat) 2) 31) else b1 in
  let b0 := if (1 <=? n)%nat then Z.shiftr (s 0%nat) 3 else 0 in
  [b0; b1; b2; b3; b4; b5; b6; b7].

Definition pad (n : nat) (dst : list ascii) : list ascii :=
  if (n <? 5)%nat then
    let dst := <[7%nat := padChar]> dst in
    if (n <? 4)%nat then
      let dst := <[5%nat := padChar]> (<[6%nat := padChar]> dst) in
      if (n <? 3)%nat then
        let dst := <[4%nat := padChar]> dst in
        if (n <? 2)%nat then <[2%nat := padChar]> (<[3%nat := padChar]> dst)
        else dst
      else dst
    else dst
  else dst.

Fixpoint Encode (src : list Z) : list ascii :=
  match src with
  | [] => []
  | s0 :: s1 :: s2 :: s3 :: s4 :: rest =>
      map encChar (quantum [s0; s1; s2; s3; s4]) ++ Encode rest
  | _ => pad (length src) (map encChar (quantum src))
  end.

Definition EncodeToString (src : list Byte.byte) : string :=
  string_of_list_ascii (Encode (map byteZ src)).

(** ** strings.TrimRight and strings.Trim over a cut set *)

Definition in_cutset (cutset : list ascii) (c : ascii) : bool :=
  existsb (Ascii.eqb c) cutset.

Fixpoint trim_right (s cutset : list ascii) : list ascii :=
  match s with
  | [] => []
  | c :: s' =>
      match trim_right s' cutset with
      | [] => if in_cutset cutset c then [] else [c]
      | t => c :: t
      end
  end.

Fixpoint trim_left (s cutset : list ascii) : list ascii :=
  match s with
  | [] => []
  | c :: s' => if in_cutset cutset c then trim_left s' cutset else s
  end.

Definition TrimRight (s cutset : string) : string :=
  string_of_list_ascii
    (trim_right (list_ascii_of_string s) (list_ascii_of_string cutset)).

Definition Trim (s cutset : string) : string :=
  string_of_list_ascii
    (trim_left (trim_right (list_ascii_of_string s) (list_ascii_of_string cutset))
       (list_ascii_of_string cutset)).

(** The identifier [Save] gives to a session that has none, from the key
    [securecookie.GenerateRandomKey(32)] returned. *)
Definition newSessionID (key : list Byte.byte) : string :=
  TrimRight (EncodeToString key) "=".

(** ** Data model *)

(** A Go [interface{}] value held by the session value map.  [ANil] is the
    nil interface, which is also what indexing a map at an absent key
    gives. *)
Inductive any : Type :=
  | ANil
  | AInt64 (z : Z)
  | AInt (z : Z)
  | AString (s : string)
  | ABool (b : bool).

Definition index (values : gmap string any) (key : string) : any :=
  default ANil (values !! key).

(** [x.(int64)]: the unchecked type assertion, [None] where Go panics. *)
Definition assert_int64 (x : any) : option Z :=
  match x with
  | AInt64 z => Some z
  | _ => None
  end.

Record Session : Type := mkSession {
  ID : string;
  Name : string;
  Values : gmap string any;
  IsNew : bool
}.

Definition NewSession (name : string) : Session :=
  {| ID := ""; Name := name; Values := ∅; IsNew := false |}.

Definition set_ID (s : Session) (id : string) : Session :=
  {| ID := id; Name := Name s; Values := Values s; IsNew := IsNew s |}.

Definition set_Values (s : Session) (v : gmap string any) : Session :=
  {| ID := ID s; Name := Name s; Values := v; IsNew := IsNew s |}.

Definition set_IsNew (s : Session) (b : bool) : Session :=
  {| ID := ID s; Name := Name s; Values := Values s; IsNew := b |}.

Record sessionRow : Type := mkRow {
  row_id : string;
  row_data : list Byte.byte;
  row_created : Z;
  row_modified : Z;
  row_expires : Z
}.

Inductive error : Type :=
  | ErrNoRows
  | ErrSessionExpired
  | ErrDecode
  | ErrEncode
  | ErrSerialize
  | ErrDeserialize
  | ErrDriver (msg : string)
  | ErrWrap (cause : error) (query : string).

(** How a call ends: it returns nil, returns an error, or panics. *)
Inductive status : Type :=
  | Done
  | Failed (e : error)
  | Panicked.

Definition status_of (r : option error) : status :=
  match r with
  | None => Done
  | Some e => Failed e
  end.

(** ** The database

    The two garbage-collection fragments are statement prefixes that end
    in a comparison awaiting its right operand:
    - [WhereExpiresLt]: DELETE FROM t WHERE expires < ;
    - [WhereCharLengthAndCreatedLt n]: DELETE FROM t WHERE
      char_length(data) = n AND created < .
    [char_length(data)] is taken to be the number of bytes of the
    payload. *)
Inductive gcFragment : Type :=
  | WhereExpiresLt
  | WhereCharLengthAndCreatedLt (size : Z).

Inductive column : Type := Cid | Cdata | Ccreated | Cmodified | Cexpires.

(** The statements the package issues, one constructor for each text:
    - [CreateTable q]: the DDL [q];
    - [ReplaceInto]: REPLACE INTO t (id, data, created, modified, expires)
      VALUES (?, ?, ?, ?, ?);
    - [DeleteWhereId]: DELETE FROM t WHERE id = ?;
    - [UpdateWhereId]: UPDATE t SET data = ?, created = ?, expires = ?
      WHERE id = ?;
    - [SelectWhereId]: SELECT id, data, created, modified, expires from t
      WHERE id = ?;
    - [DeleteWhere frag n]: the fragment [frag] followed by the decimal
      numeral of [n].
    The arguments come in the order of the placeholders. *)
Inductive stmt : Type :=
  | CreateTable (query : string)
  | ReplaceInto (id : string) (data : list Byte.byte) (created modified expires : Z)
  | DeleteWhereId (id : string)
  | UpdateWhereId (data : list Byte.byte) (created expires : Z) (id : string)
  | SelectWhereId (id : string)
  | DeleteWhere (frag : gcFragment) (operand : Z).

(** The columns a statement assigns, as its text lists them. *)
Definition columns_written (q : stmt) : list column :=
  match q with
  | ReplaceInto _ _ _ _ _ => [Cid; Cdata; Ccreated; Cmodified; Cexpires]
  | UpdateWhereId _ _ _ _ => [Cdata; Ccreated; Cexpires]
  | _ => []
  end.

Definition column_eqb (a b : column) : bool :=
  match a, b with
  | Cid, Cid | Cdata, Cdata | Ccreated, Ccreated
  | Cmodified, Cmodified | Cexpires, Cexpires => true
  | _, _ => false
  end.

Definition writes_column (c : column) (q : stmt) : bool :=
  existsb (column_eqb c) (columns_written q).

Definition gc_matches (frag : gcFragment) (operand : Z) (r : sessionRow) : bool :=
  match frag with
  | WhereExpiresLt => row_expires r <? operand
  | WhereCharLengthAndCreatedLt size =>
      (Z.of_nat (length (row_data r)) =? size) && (row_created r <? operand)
  end.

Definition update_row (data : list Byte.byte) (created expires : Z)
    (r : sessionRow) : sessionRow :=
  {| row_id := row_id r; row_data := data; row_created := created;
     row_modified := row_modified r; row_expires := expires |}.

(** The effect of a statement on the table, whose primary key is [id]. *)
Definition run (q : stmt) (t : gmap string sessionRow) : gmap string sessionRow :=
  match q with
  | CreateTable _ => t
  | ReplaceInto id data created modified expires =>
      <[id := mkRow id data created modified expires]> t
  | DeleteWhereId id => delete id t
  | UpdateWhereId data created expires id =>
      alter (update_row data created expires) id t
  | SelectWhereId _ => t
  | DeleteWhere frag operand =>
      filter (fun kr => gc_matches frag operand (snd kr) = false) t
  end.

Inductive logEntry : Type :=
  | LogSessionExpired (expires now : Z)
  | LogSweepFailed (e : error).

(** The world outside the store: the table, the statements issued so far,
    the log, and what the driver will answer to the next calls ([Some msg]
    is a failure; once the list is used up every call succeeds). *)
Record World : Type := mkWorld {
  rows : gmap string sessionRow;
  issued : list stmt;
  logged : list logEntry;
  driver : list (option string)
}.

Definition driver_answer (w : World) : option string :=
  match driver w with
  | [] => None
  | o :: _ => o
  end.

(** [db.Exec] and [Stmt.Exec] *)
Definition Exec (q : stmt) (w : World) : option error * World :=
  match driver_answer w with
  | Some msg =>
      (Some (ErrDriver msg),
       {| rows := rows w; issued := issued w ++ [q]; logged := logged w;
          driver := tail (driver w) |})
  | None =>
      (None,
       {| rows := run q (rows w); issued := issued w ++ [q]; logged := logged w;
          driver := tail (driver w) |})
  end.

(** [db.Prepare] *)
Definition Prepare (w : World) : option error * World :=
  let w' := {| rows := rows w; issued := issued w; logged := logged w;
               driver := tail (driver w) |} in
  match driver_answer w with
  | Some msg => (Some (ErrDriver msg), w')
  | None => (None, w')
  end.

(** [Stmt.QueryRow] followed by [Row.Scan] *)
Definition QueryRow (id : string) (w : World) : (error + sessionRow) * World :=
  let w' := {| rows := rows w; issued := issued w ++ [SelectWhereId id];
               logged := logged w; driver := tail (driver w) |} in
  match driver_answer w with
  | Some msg => (inl (ErrDriver msg), w')
  | None =>
      match rows w !! id with
      | None => (inl ErrNoRows, w')
      | Some r => (inr r, w')
      end
  end.

Definition Printf (e : logEntry) (w : World) : World :=
  {| rows := rows w; issued := issued w; logged := logged w ++ [e];
     driver := driver w |}.

(** ** The request context *)

Record cookieCall : Type := mkCookieCall {
  cookie_name : string;
  cookie_value : string;
  cookie_maxAge : option Z
}.

Record Context : Type := mkContext {
  requestCookies : gmap string string;
  CookieOptionsMaxAge : Z;
  responseCookies : list cookieCall
}.

Definition GetCookie (c : Context) (name : string) : string :=
  default "" (requestCookies c !! name).

(** [sessions.SetCookie(ctx, name, value, maxAge...)] *)
Definition SetCookie (c : Context) (name value : string) (maxAge : option Z) : Context :=
  {| requestCookies := requestCookies c;
     CookieOptionsMaxAge := CookieOptionsMaxAge c;
     responseCookies := responseCookies c ++ [mkCookieCall name value maxAge] |}.

(** ** Configuration and the store *)

Module Options.
Record t : Type := mk {
  Table : string;
  KeyPrefix : string;
  KeyPairs : list (list Byte.byte);
  MaxAge : Z;
  EmptyDataAge : Z;
  MaxLength : Z;
  CheckInterval : Z;
  MaxReconnect : Z;
  ddl : string
}.
End Options.

(** [time.Minute * 5], in nanoseconds *)
Definition DefaultInterval : Z := 300000000000.

Record State : Type := mkState {
  ctx : Context;
  session : Session;
  world : World
}.

(** The collaborators the package calls but does not implement:
    [fmt.Sprintf] at one operand, the cookie codec chain of securecookie,
    its gob serialiser, and the constants of the sessions library and of
    the session engine. *)
Class Collaborators : Type := {
  Sprintf : string -> string -> string;
  codec : Type;
  CodecsFromPairs : list (list Byte.byte) -> list codec;
  SetMaxLength : list codec -> Z -> list codec;
  EncodeMulti : string -> string -> list codec -> option string;
  DecodeMulti : string -> string -> list codec -> option string;
  GobSerialize : gmap string any -> option (list Byte.byte);
  GobDeserialize : list Byte.byte -> option (gmap string any);
  EmptyGobSize : Z;
  DefaultMaxAge : Z;
  EmptyDataAge : Z
}.

Section Store.

Context {lib : Collaborators}.

Record SQLStore : Type := mkStore {
  gcMaxAgeSQL : gcFragment;
  gcEmptyDataSQL : gcFragment;
  Codecs : list codec;
  table : string;
  maxAge : Z;
  emptyDataAge : Z;
  checkInterval : Z;
  keyPrefix : string
}.

(** The package-level constructor [New(db, cfg)]. *)
Definition New (cfg : Options.t) (w : World) : (error + SQLStore) * World :=
  let Table :=
    if (String.length (Options.Table cfg) =? 0)%nat then "session"
    else Options.Table cfg in
  let tableName := "`" +:+ Trim Table "`" +:+ "`" in
  let cTableQ := Sprintf (Options.ddl cfg) tableName in
  match Exec (CreateTable cTableQ) w with
  | (Some err, w) => (inl (ErrWrap err cTableQ), w)
  | (None, w) =>
  let insQ := "REPLACE INTO " +:+ tableName +:+
              "(id, data, created, modified, expires) VALUES (?, ?, ?, ?, ?)" in
  match Prepare w with
  | (Some stmtErr, w) => (inl (ErrWrap stmtErr insQ), w)
  | (None, w) =>
  let delQ := "DELETE FROM " +:+ tableName +:+ " WHERE id = ?" in
  match Prepare w with
  | (Some stmtErr, w) => (inl (ErrWrap stmtErr delQ), w)
  | (None, w) =>
  let updQ := "UPDATE " +:+ tableName +:+ " SET data = ?, created = ?, expires = ? " +:+
              "WHERE id = ?" in
  match Prepare w with
  | (Some stmtErr, w) => (inl (ErrWrap stmtErr updQ), w)
  | (None, w) =>
  let selQ := "SELECT id, data, created, modified, expires from " +:+
              tableName +:+ " WHERE id = ?" in
  match Prepare w with
  | (Some stmtErr, w) => (inl (ErrWrap stmtErr selQ), w)
  | (None, w) =>
      let codecs := CodecsFromPairs (Options.KeyPairs cfg) in
      let codecs :=
        if 0 <? Options.MaxLength cfg
        then SetMaxLength codecs (Options.MaxLength cfg) else codecs in
      (inr {| gcMaxAgeSQL := WhereExpiresLt;
              gcEmptyDataSQL := WhereCharLengthAndCreatedLt EmptyGobSize;
              Codecs := codecs;
              table := tableName;
              maxAge := Options.MaxAge cfg;
              emptyDataAge :=
                if Options.EmptyDataAge cfg <=? 0 then EmptyDataAge
                else Options.EmptyDataAge cfg;
              checkInterval := Options.CheckInterval cfg;
              keyPrefix :=
                if (String.length (Options.KeyPrefix cfg) =? 0)%nat then "_"
                else Options.KeyPrefix cfg |}, w)
  end end end end end.

Definition MaxAge (n : SQLStore) (c : Context) : Z :=
  let maxAge' := CookieOptionsMaxAge c in
  if maxAge' =? 0 then
    if 0 <? maxAge n then maxAge n else DefaultMaxAge
  else maxAge'.

(** The three reserved keys are removed from the value map. *)
Definition strip (m : SQLStore) (values : gmap string any) : gmap string any :=
  delete (keyPrefix m +:+ "modified")
    (delete (keyPrefix m +:+ "expires")
       (delete (keyPrefix m +:+ "created") values)).

Definition with_session (st : State) (s : Session) : State :=
  {| ctx := ctx st; session := s; world := world st |}.

(** The three reads of the reserved keys, [None] where the type
    assertion [.(int64)] panics:
    [if created == nil { createdAt = nowTs } else { createdAt = created.(int64) }],
    and the two variants for [expires], of [insert] and of [save]. *)
Definition read_created (m : SQLStore) (nowTs : Z) (values : gmap string any)
    : option Z :=
  let created := index values (keyPrefix m +:+ "created") in
  match created with
  | ANil => Some nowTs
  | _ => assert_int64 created
  end.

Definition read_expires_insert (m : SQLStore) (nowTs maxAge' : Z)
    (values : gmap string any) : option Z :=
  let expires := index values (keyPrefix m +:+ "expires") in
  match expires with
  | ANil => Some (add64 nowTs maxAge')
  | _ => assert_int64 expires
  end.

Definition read_expires_save (m : SQLStore) (nowTs maxAge' : Z)
    (values : gmap string any) : option Z :=
  let expires := index values (keyPrefix m +:+ "expires") in
  match expires with
  | ANil => Some (add64 nowTs maxAge')
  | _ =>
      match assert_int64 expires with
      | None => None
      | Some expiredAt =>
          let expiresTs := add64 nowTs maxAge' in
          Some (if expiredAt <? expiresTs then expiresTs else expiredAt)
      end
  end.

Definition insert (m : SQLStore) (now : Z) (st : State) : status * State :=
  let s := session st in
  let nowTs := now in
  match read_created m nowTs (Values s) with
  | None => (Panicked, st)
  | Some createdAt =>
      let modifiedAt := createdAt in
      match read_expires_insert m nowTs (MaxAge m (ctx st)) (Values s) with
      | None => (Panicked, st)
      | Some expiredAt =>
          let s := set_Values s (strip m (Values s)) in
          match GobSerialize (Values s) with
          | None => (Failed ErrSerialize, with_session st s)
          | Some encoded =>
              let (insErr, w) :=
                Exec (ReplaceInto (ID s) encoded createdAt modifiedAt expiredAt)
                  (world st) in
              (status_of insErr, {| ctx := ctx st; session := s; world := w |})
          end
      end
  end.

Definition save (m : SQLStore) (now : Z) (st : State) : status * State :=
  let s := session st in
  if IsNew s then insert m now st
  else
    let nowTs := now in
    match read_created m nowTs (Values s) with
    | None => (Panicked, st)
    | Some createdAt =>
        match read_expires_save m nowTs (MaxAge m (ctx st)) (Values s) with
        | None => (Panicked, st)
        | Some expiredAt =>
            let s := set_Values s (strip m (Values s)) in
            match GobSerialize (Values s) with
            | None => (Failed ErrSerialize, with_session st s)
            | Some encoded =>
                let (updErr, w) :=
                  Exec (UpdateWhereId encoded createdAt expiredAt (ID s))
                    (world st) in
                (status_of updErr, {| ctx := ctx st; session := s; world := w |})
            end
        end
    end.

Definition Remove (m : SQLStore) (sessionID : string) (w : World)
    : option error * World :=
  if (String.length sessionID =? 0)%nat then (None, w)
  else Exec (DeleteWhereId sessionID) w.

Definition Delete (m : SQLStore) (st : State) : status * State :=
  let s := session st in
  let c := SetCookie (ctx st) (Name s) "" (Some (-1)) in
  let s := set_Values s (map_fold (fun k _ values => delete k values) (Values s) (Values s)) in
  let (delErr, w) := Remove m (ID s) (world st) in
  (status_of delErr, {| ctx := c; session := s; world := w |}).

(** [key] is what [securecookie.GenerateRandomKey(32)] returns when the
    call is reached. *)
Definition Save (m : SQLStore) (now : Z) (key : list Byte.byte) (st : State)
    : status * State :=
  if CookieOptionsMaxAge (ctx st) <? 0 then Delete m st
  else
    let (written, st) :=
      if (String.length (ID (session st)) =? 0)%nat then
        insert m now (with_session st (set_ID (session st) (newSessionID key)))
      else save m now st in
    match written with
    | Done =>
        match EncodeMulti (Name (session st)) (ID (session st)) (Codecs m) with
        | None => (Failed ErrEncode, st)
        | Some encoded =>
            (Done,
             {| ctx := SetCookie (ctx st) (Name (session st)) encoded None;
                session := session st; world := world st |})
        end
    | _ => (written, st)
    end.

(** [Gob.Deserialize] decodes into the map the session already has: the
    decoded entries are added to it, replacing those with the same key. *)
Definition load (m : SQLStore) (now : Z) (s : Session) (w : World)
    : status * Session * World :=
  match QueryRow (ID s) w with
  | (inl scanErr, w) => (Failed scanErr, s, w)
  | (inr sess, w) =>
      if row_expires sess <? now then
        (Failed ErrSessionExpired, s,
         Printf (LogSessionExpired (row_expires sess) now) w)
      else
        match GobDeserialize (row_data sess) with
        | None => (Failed ErrDeserialize, s, w)
        | Some decoded =>
            let values := decoded ∪ Values s in
            let values := <[keyPrefix m +:+ "created" := AInt64 (row_created sess)]> values in
            let values := <[keyPrefix m +:+ "modified" := AInt64 (row_modified sess)]> values in
            let values := <[keyPrefix m +:+ "expires" := AInt64 (row_expires sess)]> values in
            (Done, set_Values s values, w)
        end
  end.

(** What [New] and [Reload] do with the outcome of [load]. *)
Definition absorb (r : status) (s : Session) : status * Session :=
  match r with
  | Done => (Done, set_IsNew s false)
  | Failed ErrNoRows | Failed ErrSessionExpired => (Done, s)
  | _ => (r, s)
  end.

(** The method [SQLStore.New(ctx, name)]. *)
Definition SQLStore_New (m : SQLStore) (now : Z) (c : Context) (name : string)
    (w : World) : status * Session * World :=
  let session := set_IsNew (NewSession name) true in
  let value := GetCookie c name in
  if (String.length value =? 0)%nat then (Done, session, w)
  else
    match DecodeMulti name value (Codecs m) with
    | None => (Failed ErrDecode, session, w)
    | Some id =>
        let session := set_ID session id in
        let '(err, session, w) := load m now session w in
        let (err, session) := absorb err session in
        (err, session, w)
    end.


(** Modelled from the spec: the field [gcStmt] that [deleteExpired]
    reads is not among the fields [SQLStore] declares.  The spec has the
    sweep pass use the precomputed delete-by-expiry fragment, completed
    with the current unix time. *)
Definition gcStmt (m : SQLStore) : gcFragment := gcMaxAgeSQL m.

Definition deleteExpired (m : SQLStore) (now : Z) (w : World)
    : option error * World :=
  Exec (DeleteWhere (gcStmt m) now) w.

(** *** The sweeper

    [Cleanup] starts the goroutine [cleanup] and hands the caller the two
    unbuffered channels [quit] and [done]; [StopCleanup] sends on the
    first and receives on the second.  The two threads are modelled by
    their program points and an event is one of their atomic steps: a
    send and its matching receive on an unbuffered channel are a single
    event of both threads. *)

Inductive taskPoint : Type :=
  | AtSelect          (* blocked in [select] *)
  | InDeleteExpired   (* took [case <-ticker.C], about to run the pass *)
  | AtSendDone        (* took [case <-quit], blocked in [done <- struct{}{}] *)
  | Exited.           (* returned from [cleanup] *)

Inductive callerPoint : Type :=
  | Holding           (* holds the handles, [StopCleanup] not yet called *)
  | AtSendQuit        (* in [StopCleanup], blocked in [quit <- struct{}{}] *)
  | AtRecvDone        (* in [StopCleanup], blocked in [<-done] *)
  | Returned.         (* [StopCleanup] has returned *)

Record Sweeper : Type := mkSweeper {
  interval : Z;
  task : taskPoint;
  caller : callerPoint;
  sweeper_world : World;
  passes : nat
}.

Definition Cleanup (m : SQLStore) (interval : Z) (w : World) : Sweeper :=
  let interval := if interval <=? 0 then DefaultInterval else interval in
  {| interval := interval; task := AtSelect; caller := Holding;
     sweeper_world := w; passes := 0 |}.

Inductive event : Type :=
  | Tick                  (* the ticker fires and [select] takes it *)
  | Pass (now : Z)        (* [deleteExpired] runs, its error is logged *)
  | CallStopCleanup       (* the caller enters [StopCleanup] *)
  | QuitHandshake         (* [quit <- struct{}{}] meets [case <-quit] *)
  | DoneHandshake.        (* [done <- struct{}{}] meets [<-done] *)

(** The body of [case <-ticker.C]. *)
Definition cleanup_pass (m : SQLStore) (now : Z) (w : World) : World :=
  match deleteExpired m now w with
  | (Some err, w) => Printf (LogSweepFailed err) w
  | (None, w) => w
  end.

Definition fire (m : SQLStore) (e : event) (s : Sweeper) : option Sweeper :=
  match e, task s, caller s with
  | Tick, AtSelect, _ =>
      Some {| interval := interval s; task := InDeleteExpired; caller := caller s;
              sweeper_world := sweeper_world s; passes := passes s |}
  | Pass now, InDeleteExpired, _ =>
      Some {| interval := interval s; task := AtSelect; caller := caller s;
              sweeper_world := cleanup_pass m now (sweeper_world s);
              passes := S (passes s) |}
  | CallStopCleanup, _, Holding =>
      Some {| interval := interval s; task := task s; caller := AtSendQuit;
              sweeper_world := sweeper_world s; passes := passes s |}
  | QuitHandshake, AtSelect, AtSendQuit =>
      Some {| interval := interval s; task := AtSendDone; caller := AtRecvDone;
              sweeper_world := sweeper_world s; passes := passes s |}
  | DoneHandshake, AtSendDone, AtRecvDone =>
      Some {| interval := interval s; task := Exited; caller := Returned;
              sweeper_world := sweeper_world s; passes := passes s |}
  | _, _, _ => None
  end.

Fixpoint fire_all (m : SQLStore) (es : list event) (s : Sweeper) : option Sweeper :=
  match es with
  | [] => Some s
  | e :: es =>
      match fire m e s with
      | Some s' => fire_all m es s'
      | None => None
      end
  end.

End Store.

(** ** A small instance of the collaborators and sample data

    The codec chain passes identifiers through unchanged and rejects the
    one cookie value ["forged"]; the serialiser knows the empty value map
    and one sample map.  These are used to run the operations on explicit
    inputs; [Sprintf] there just appends its operand. *)

#[export] Instance any_eq_dec : EqDecision any.
Proof. solve_decision. Defined.

Definition sampleValues : gmap string any :=
  {[ "user" := AString "ann" ]}.

Definition sampleSerialize (v : gmap string any) : option (list Byte.byte) :=
  if decide (v = ∅) then Some [Byte.x00]
  else if decide (v = sampleValues) then Some [Byte.x01; Byte.x02]
  else None.

Definition sampleDeserialize (b : list Byte.byte) : option (gmap string any) :=
  match b with
  | [Byte.x00] => Some ∅
  | [Byte.x01; Byte.x02] => Some sampleValues
  | _ => None
  end.

Definition sampleLib : Collaborators :=
  {| Sprintf := fun format table => format +:+ table;
     codec := unit;
     CodecsFromPairs := fun _ => [];
     SetMaxLength := fun cs _ => cs;
     EncodeMulti := fun _ id _ => Some id;
     DecodeMulti := fun _ value _ =>
       if String.eqb value "forged" then None else Some value;
     GobSerialize := sampleSerialize;
     GobDeserialize := sampleDeserialize;
     EmptyGobSize := 1;
     DefaultMaxAge := 2592000;
     EmptyDataAge := 86400 |}.

Definition sampleStore : @SQLStore sampleLib :=
  {| gcMaxAgeSQL := WhereExpiresLt;
     gcEmptyDataSQL := WhereCharLengthAndCreatedLt 1;
     Codecs := [];
     table := "`session`";
     maxAge := 10;
     emptyDataAge := 100;
     checkInterval := 0;
     keyPrefix := "_" |}.

Definition emptyWorld : World :=
  {| rows := ∅; issued := []; logged := []; driver := [] |}.

Definition worldOf (t : gmap string sessionRow) (answers : list (option string)) : World :=
  {| rows := t; issued := []; logged := []; driver := answers |}.

Definition requestWith (maxAge : Z) (cookies : gmap string string) : Context :=
  {| requestCookies := cookies; CookieOptionsMaxAge := maxAge; responseCookies := [] |}.

Definition zeroKey : list Byte.byte := repeat Byte.x00 32.

(** A request without cookies whose cookie policy has the given max-age,
    holding a session that [SQLStore_New] has just made for it. *)
Definition freshState (maxAge : Z) (values : gmap string any) : State :=
  {| ctx := requestWith maxAge ∅;
     session := set_Values (set_IsNew (NewSession "sess") true) values;
     world := emptyWorld |}.

(** A table with one row, which holds the serialised empty value map. *)
Definition oneRow (id : string) (created modified expires : Z)
    : gmap string sessionRow :=
  {[ id := mkRow id [Byte.x00] created modified expires ]}.

Definition sessionOf (id : string) (values : gmap string any) (isNew : bool) : Session :=
  {| ID := id; Name := "sess"; Values := values; IsNew := isNew |}.

(** The sweep pass as the specification words it: a row goes when its
    [expires] is less than the current time, or when its payload has the
    size of the serialised empty map and its [created] is less than the
    current time minus the empty-data age. *)
Definition sweep_spec {lib : Collaborators} (m : SQLStore) (now : Z)
    (t : gmap string sessionRow) : gmap string sessionRow :=
  filter (fun kr =>
            gc_matches (gcMaxAgeSQL m) now (snd kr)
            || gc_matches (gcEmptyDataSQL m) (now - emptyDataAge m) (snd kr) = false) t.

(** A request whose session ["a"] is not new, over a table and a driver
    that answers every call. *)
Definition existingState (values : gmap string any) (t : gmap string sessionRow)
    : State :=
  mkState (requestWith 0 ∅) (sessionOf "a" values false) (worldOf t []).

Definition carriedExpiry : gmap string any := {[ "_expires" := AInt64 10000 ]}.


(** The request that comes back with the cookie [Save] has set on a fresh
    session: the state after [SQLStore_New] has served it. *)
Definition returningState {lib : Collaborators} (m : SQLStore) (now : Z)
    (cookie : string) (w : World) : State :=
  let c := requestWith 0 {[ "sess" := cookie ]} in
  let '(_, s, w) := SQLStore_New m now c "sess" w in
  {| ctx := c; session := s; world := w |}.

(** The row-write step of [Save] off the delete path: the [if] that
    chooses between [insert] under a new identifier and [save]. *)
Definition write_step {lib : Collaborators} (m : SQLStore) (now : Z)
    (key : list Byte.byte) (st : State) : status * State :=
  if (String.length (ID (session st)) =? 0)%nat
  then insert m now (with_session st (set_ID (session st) (newSessionID key)))
  else save m now st.

(** The sample collaborators with a codec chain that cannot encode, as a
    chain without codecs. *)
Definition sampleLibNoCodec : Collaborators :=
  {| Sprintf := fun format table => format +:+ table;
     codec := unit;
     CodecsFromPairs := fun _ => [];
     SetMaxLength := fun cs _ => cs;
     EncodeMulti := fun _ _ _ => None;
     DecodeMulti := fun _ _ _ => None;
     GobSerialize := sampleSerialize;
     GobDeserialize := sampleDeserialize;
     EmptyGobSize := 1;
     DefaultMaxAge := 2592000;
     EmptyDataAge := 86400 |}.

Definition sampleStoreNoCodec : @SQLStore sampleLibNoCodec :=
  {| gcMaxAgeSQL := WhereExpiresLt;
     gcEmptyDataSQL := WhereCharLengthAndCreatedLt 1;
     Codecs := [];
     table := "`session`";
     maxAge := 10;
     emptyDataAge := 100;
     checkInterval := 0;
     keyPrefix := "_" |}.

(** The times at which the passes of a run of the sweeper read the clock. *)
Definition pass_times (es : list event) : list Z :=
  omap (fun e => match e with Pass now => Some now | _ => None end) es.

(** A configuration with another table name. *)
Definition with_Table (cfg : Options.t) (t : string) : Options.t :=
  Options.mk t (Options.KeyPrefix cfg) (Options.KeyPairs cfg) (Options.MaxAge cfg)
    (Options.EmptyDataAge cfg) (Options.MaxLength cfg) (Options.CheckInterval cfg)
    (Options.MaxReconnect cfg) (Options.ddl cfg).

(** The driver answers its next [n] calls. *)
Definition answers_next (n : nat) (w : World) : Prop :=
  Forall (fun o => o = None) (take n (driver w)).

(** An existing session whose value map carries no reserved key, over the
    row that was created at time 7. *)
Definition bareUpdateState : State := existingState ∅ (oneRow "a" 7 7 50).

(** ** The 5-bit groups of a block, one by one

    [g0] to [g7] are the eight groups [quantum] cuts a block [x y z u v]
    into, each as a function of the one or two bytes it takes bits from; a
    byte the block does not have counts as 0.  [d0] to [d4] put the bytes
    together again from the groups. *)
Definition g0 (x : Z) : Z := Z.shiftr x 3.
Definition g1 (x y : Z) : Z := Z.lor (Z.land (Z.shiftr y 6) 31) (Z.land (Z.shiftl x 2) 31).
Definition g2 (y : Z) : Z := Z.land (Z.shiftr y 1) 31.
Definition g3 (y z : Z) : Z := Z.lor (Z.land (Z.shiftr z 4) 31) (Z.land (Z.shiftl y 4) 31).
Definition g4 (z u : Z) : Z := Z.lor (Z.shiftr u 7) (Z.land (Z.shiftl z 1) 31).
Definition g5 (u : Z) : Z := Z.land (Z.shiftr u 2) 31.
Definition g6 (u v : Z) : Z := Z.lor (Z.shiftr v 5) (Z.land (Z.shiftl u 3) 31).
Definition g7 (v : Z) : Z := Z.land v 31.

Definition d0 (b0 b1 : Z) : Z := 8 * b0 + b1 / 4.
Definition d1 (b1 b2 b3 : Z) : Z := (b1 mod 4) * 64 + b2 * 2 + b3 / 16.
Definition d2 (b3 b4 : Z) : Z := (b3 mod 16) * 16 + b4 / 2.
Definition d3 (b4 b5 b6 : Z) : Z := (b4 mod 2) * 128 + b5 * 4 + b6 / 8.
Definition d4 (b6 b7 : Z) : Z := (b6 mod 8) * 32 + b7.

Definition all_bytes : list Z := map Z.of_nat (seq 0 256).

Definition in_group_range (b : Z) : bool := (0 <=? b) && (b <? 32).

(** What two neighbouring bytes [a], [b] of a block must satisfy for the
    groups to give the bytes back; checked over all pairs of bytes. *)
Definition groups_decode (a b : Z) : bool :=
  (d0 (g0 a) (g1 a b) =? a)
  && (g1 a b mod 4 =? b / 64)
  && (g3 a b / 16 =? a mod 2)
  && (g3 a b mod 16 =? b / 16)
  && (g4 a b / 2 =? a mod 16)
  && (g4 a b mod 2 =? b / 128)
  && (g6 a b / 8 =? a mod 4)
  && (g6 a b mod 8 =? b / 32)
  && ((a / 64) * 64 + g2 a * 2 + a mod 2 =? a)
  && ((a / 128) * 128 + g5 a * 4 + a mod 4 =? a)
  && (g7 a =? a mod 32)
  && in_group_range (g0 a) && in_group_range (g1 a b) && in_group_range (g2 a)
  && in_group_range (g3 a b) && in_group_range (g4 a b) && in_group_range (g5 a)
  && in_group_range (g6 a b) && in_group_range (g7 a).

Definition all_groups_decode : bool :=
  forallb (fun a => forallb (groups_decode a) all_bytes) all_bytes.

(** * Properties *)

(** ** Base32 *)

(** The test vectors of RFC 4648, section 10. *)
Example Encode_rfc4648_vectors :
  let enc (s : string) :=
    string_of_list_ascii
      (Encode (map (fun c => Z.of_nat (nat_of_ascii c)) (list_ascii_of_string s))) in
  enc "" = "" /\ enc "f" = "MY======" /\ enc "fo" = "MZXQ====" /\
  enc "foo" = "MZXW6===" /\ enc "foob" = "MZXW6YQ=" /\
  enc "fooba" = "MZXW6YTB" /\ enc "foobar" = "MZXW6YTBOI======".
Proof. repeat split; vm_compute; reflexivity. Qed.

Example TrimRight_padding : TrimRight "MZXW6YTBOI======" "=" = "MZXW6YTBOI".
Proof. reflexivity. Qed.

Lemma length_string_of_list_ascii (l : list ascii) :
  String.length (string_of_list_ascii l) = length l.
Proof. induction l as [|c l IH]; simpl; congruence. Qed.

Lemma encChar_in_alphabet (i : Z) : 0 <= i < 32 -> In (encChar i) encodeStd.
Proof.
  intros Hi. unfold encChar. apply nth_In.
  change (length encodeStd) with 32%nat. lia.
Qed.

Lemma alphabet_not_pad (c : ascii) : In c encodeStd -> c <> padChar.
Proof.
  intros Hin ->. vm_compute in Hin.
  repeat (destruct Hin as [Hin|Hin]; [discriminate Hin|]). exact Hin.
Qed.

Lemma byteZ_range (b : Byte.byte) : 0 <= byteZ b < 256.
Proof.
  unfold byteZ. pose proof (Byte.to_N_bounded b) as Hb. lia.
Qed.

Lemma land31_range (x : Z) : 0 <= Z.land x 31 < 32.
Proof.
  change 31 with (Z.ones 5). rewrite Z.land_ones by lia.
  apply Z.mod_pos_bound. reflexivity.
Qed.

Lemma shiftr_range (x k : Z) :
  0 <= x < 256 -> 3 <= k -> 0 <= Z.shiftr x k < 32.
Proof.
  intros Hx Hk. rewrite Z.shiftr_div_pow2 by lia. split.
  - apply Z.div_pos; [lia|]. apply Z.pow_pos_nonneg; lia.
  - apply Z.div_lt_upper_bound; [apply Z.pow_pos_nonneg; lia|].
    assert (2 ^ 3 <= 2 ^ k) by (apply Z.pow_le_mono_r; lia).
    change (2 ^ 3) with 8 in *. nia.
Qed.

Lemma lor_range (a b : Z) : 0 <= a < 32 -> 0 <= b < 32 -> 0 <= Z.lor a b < 32.
Proof.
  intros Ha Hb. split; [apply Z.lor_nonneg; lia|].
  destruct (Z.eq_dec (Z.lor a b) 0) as [->|Hne]; [lia|].
  assert (0 < Z.lor a b) by (pose proof (proj2 (Z.lor_nonneg a b)); lia).
  change 32 with (2 ^ 5). apply Z.log2_lt_pow2; [assumption|].
  rewrite Z.log2_lor by lia.
  assert (Ha' : Z.log2 a < 5).
  { destruct (Z.eq_dec a 0) as [->|]; [reflexivity|].
    apply Z.log2_lt_pow2; [lia|]. change (2 ^ 5) with 32. lia. }
  assert (Hb' : Z.log2 b < 5).
  { destruct (Z.eq_dec b 0) as [->|]; [reflexivity|].
    apply Z.log2_lt_pow2; [lia|]. change (2 ^ 5) with 32. lia. }
  lia.
Qed.

Lemma quantum_range (src : list Z) :
  Forall is_byte src -> Forall (fun b => 0 <= b < 32) (quantum src).
Proof.
  intros Hsrc.
  assert (Hs : forall i, is_byte (nth i src 0)).
  { intros i. destruct (Nat.lt_ge_cases i (length src)) as [Hi|Hi].
    - rewrite Forall_forall in Hsrc. apply Hsrc, list_elem_of_In, nth_In, Hi.
    - rewrite nth_overflow by exact Hi. unfold is_byte. lia. }
  unfold quantum.
  repeat match goal with
         | |- Forall _ (_ :: _) => constructor
         | |- Forall _ [] => constructor
         end;
    repeat match goal with
           | |- context [if ?c then _ else _] => destruct c
           end;
    repeat first
      [ apply lor_range
      | apply land31_range
      | apply shiftr_range; [apply Hs | lia]
      | lia ].
Qed.

Lemma quantum_chars (src : list Z) :
  Forall is_byte src ->
  Forall (fun c => In c encodeStd) (map encChar (quantum src)).
Proof.
  intros Hsrc. apply Forall_map.
  eapply Forall_impl; [apply quantum_range, Hsrc|].
  intros b Hb. apply encChar_in_alphabet, Hb.
Qed.

Lemma pad_shape (n : nat) (q : list ascii) :
  (1 <= n <= 4)%nat -> length q = 8%nat ->
  Forall (fun c => In c encodeStd) q ->
  exists body k,
    pad n q = body ++ repeat padChar k /\
    Forall (fun c => In c encodeStd) body /\
    length body = ((8 * n + 4) / 5)%nat.
Proof.
  intros Hn Hlen Hq.
  do 8 (destruct q as [|? q]; [discriminate Hlen|]).
  destruct q; [|discriminate Hlen].
  repeat match goal with
         | H : Forall _ (_ :: _) |- _ => apply Forall_cons_1 in H; destruct H
         end.
  destruct n as [|[|[|[|[|n]]]]]; try lia.
  - exists [a; a0], 6%nat. repeat split; auto.
  - exists [a; a0; a1; a2], 4%nat. repeat split; auto 10.
  - exists [a; a0; a1; a2; a3], 3%nat. repeat split; auto 10.
  - exists [a; a0; a1; a2; a3; a4; a5], 1%nat. repeat split; auto 10.
Qed.

Lemma Encode_shape (src : list Z) :
  Forall is_byte src ->
  exists body k,
    Encode src = body ++ repeat padChar k /\
    Forall (fun c => In c encodeStd) body /\
    length body = ((8 * length src + 4) / 5)%nat.
Proof.
  remember (length src) as n eqn:Hn. revert src Hn.
  induction n as [n IH] using lt_wf_ind. intros src Hn Hsrc.
  destruct src as [|s0 [|s1 [|s2 [|s3 [|s4 rest]]]]].
  - exists [], 0%nat. subst n. repeat split; constructor.
  - subst n. apply (pad_shape 1); [lia|reflexivity|apply quantum_chars, Hsrc].
  - subst n. apply (pad_shape 2); [lia|reflexivity|apply quantum_chars, Hsrc].
  - subst n. apply (pad_shape 3); [lia|reflexivity|apply quantum_chars, Hsrc].
  - subst n. apply (pad_shape 4); [lia|reflexivity|apply quantum_chars, Hsrc].
  - rewrite !Forall_cons in Hsrc.
    destruct Hsrc as (H0 & H1 & H2 & H3 & H4 & Hrest).
    assert (Hhead : Forall is_byte [s0; s1; s2; s3; s4]).
    { rewrite !Forall_cons. auto 10. }
    destruct (IH (length rest)) with (src := rest) as (body & k & Henc & Hbody & Hlen);
      [subst n; simpl; lia|reflexivity|exact Hrest|].
    exists (map encChar (quantum [s0; s1; s2; s3; s4]) ++ body), k.
    split; [|split].
    + change (Encode (s0 :: s1 :: s2 :: s3 :: s4 :: rest))
        with (map encChar (quantum [s0; s1; s2; s3; s4]) ++ Encode rest).
      rewrite Henc. apply app_assoc.
    + apply Forall_app. split; [apply quantum_chars, Hhead|exact Hbody].
    + rewrite length_app, Hlen. subst n.
      change (length (map encChar (quantum [s0; s1; s2; s3; s4]))) with 8%nat.
      change (length (s0 :: s1 :: s2 :: s3 :: s4 :: rest)) with (5 + length rest)%nat.
      replace (8 * (5 + length rest) + 4)%nat with (8 * length rest + 4 + 8 * 5)%nat by lia.
      rewrite Nat.div_add by lia. lia.
Qed.

Lemma trim_right_pads (k : nat) : trim_right (repeat padChar k) [padChar] = [].
Proof. induction k as [|k IH]; simpl; [reflexivity|]. rewrite IH. reflexivity. Qed.

Lemma trim_right_body (body : list ascii) (k : nat) :
  Forall (fun c => c <> padChar) body ->
  trim_right (body ++ repeat padChar k) [padChar] = body.
Proof.
  induction body as [|c body IH]; intros Hb.
  - apply trim_right_pads.
  - apply Forall_cons_1 in Hb. destruct Hb as [Hc Hb].
    simpl. rewrite (IH Hb). destruct body as [|c' body]; [|reflexivity].
    unfold in_cutset. simpl.
    destruct (Ascii.eqb_spec c padChar) as [Heq|_]; [contradiction|reflexivity].
Qed.

(** The identifier made from a key of [n] bytes: its characters are all of
    the base32 alphabet and there are [(8 n + 4) / 5] of them. *)
Lemma newSessionID_shape (key : list Byte.byte) :
  Forall (fun c => In c encodeStd) (list_ascii_of_string (newSessionID key)) /\
  String.length (newSessionID key) = ((8 * length key + 4) / 5)%nat.
Proof.
  destruct (Encode_shape (map byteZ key)) as (body & k & Henc & Hbody & Hlen).
  { apply Forall_map, Forall_forall. intros b _. apply byteZ_range. }
  assert (Hid : newSessionID key = string_of_list_ascii body).
  { unfold newSessionID, TrimRight, EncodeToString.
    rewrite list_ascii_of_string_of_list_ascii, Henc.
    change (list_ascii_of_string "=") with [padChar].
    rewrite trim_right_body; [reflexivity|].
    eapply Forall_impl; [exact Hbody|]. intros c. apply alphabet_not_pad. }
  rewrite Hid, list_ascii_of_string_of_list_ascii, length_string_of_list_ascii.
  rewrite length_map in Hlen. split; assumption.
Qed.

(** ** The sample store is one the constructor builds *)

Example New_builds_sampleStore :
  fst (New (lib := sampleLib)
         (Options.mk "" "" [] 10 100 0 0 0 "CREATE TABLE IF NOT EXISTS ")
         emptyWorld) = inr sampleStore.
Proof. vm_compute. reflexivity. Qed.

(** ** The reserved keys *)

Lemma append_cancel (p a b : string) : p +:+ a = p +:+ b -> a = b.
Proof.
  induction p as [|c p IH]; simpl; intros H; [exact H|].
  injection H as H. exact (IH H).
Qed.

Section StoreFacts.

Context {lib : Collaborators}.
Implicit Types (m : SQLStore) (st : State) (w : World) (s : Session).
Implicit Types (values : gmap string any).

Lemma reserved_keys_distinct m :
  keyPrefix m +:+ "created" <> keyPrefix m +:+ "expires" /\
  keyPrefix m +:+ "created" <> keyPrefix m +:+ "modified" /\
  keyPrefix m +:+ "expires" <> keyPrefix m +:+ "modified".
Proof.
  repeat split; intros H; apply append_cancel in H; discriminate H.
Qed.

Lemma lookup_strip m values (k : string) :
  strip m values !! k =
    if decide (k = keyPrefix m +:+ "created") then None
    else if decide (k = keyPrefix m +:+ "expires") then None
    else if decide (k = keyPrefix m +:+ "modified") then None
    else values !! k.
Proof.
  unfold strip. rewrite !lookup_delete.
  repeat case_decide; subst; try reflexivity; congruence.
Qed.

Lemma strip_reinject m values (a b c : any) :
  strip m
    (<[keyPrefix m +:+ "expires" := c]>
       (<[keyPrefix m +:+ "modified" := b]>
          (<[keyPrefix m +:+ "created" := a]> values)))
  = strip m values.
Proof.
  apply map_eq. intros k. rewrite !lookup_strip.
  repeat case_decide; try reflexivity.
  rewrite !lookup_insert_ne by congruence. reflexivity.
Qed.

Lemma strip_strip m values : strip m (strip m values) = strip m values.
Proof.
  apply map_eq. intros k. rewrite !lookup_strip.
  repeat case_decide; reflexivity.
Qed.

(** ** The driver *)

Lemma Exec_ok (q : stmt) w :
  driver_answer w = None ->
  Exec q w =
    (None, {| rows := run q (rows w); issued := issued w ++ [q];
              logged := logged w; driver := tail (driver w) |}).
Proof. intros H. unfold Exec. rewrite H. reflexivity. Qed.

Lemma Exec_failed (q : stmt) w (msg : string) :
  driver_answer w = Some msg ->
  Exec q w =
    (Some (ErrDriver msg),
     {| rows := rows w; issued := issued w ++ [q];
        logged := logged w; driver := tail (driver w) |}).
Proof. intros H. unfold Exec. rewrite H. reflexivity. Qed.

Lemma Exec_None_inv (q : stmt) w w' :
  Exec q w = (None, w') ->
  driver_answer w = None /\
  w' = {| rows := run q (rows w); issued := issued w ++ [q];
          logged := logged w; driver := tail (driver w) |}.
Proof.
  unfold Exec. destruct (driver_answer w); intros H; inversion H. auto.
Qed.

(** ** What a successful [insert] and [save] did *)

Lemma insert_Done_inv m now st st' :
  insert m now st = (Done, st') ->
  exists createdAt expiredAt encoded,
    read_created m now (Values (session st)) = Some createdAt /\
    read_expires_insert m now (MaxAge m (ctx st)) (Values (session st))
      = Some expiredAt /\
    GobSerialize (strip m (Values (session st))) = Some encoded /\
    driver_answer (world st) = None /\
    st' = {| ctx := ctx st;
             session := set_Values (session st) (strip m (Values (session st)));
             world :=
               {| rows := <[ID (session st) :=
                             mkRow (ID (session st)) encoded createdAt createdAt expiredAt]>
                            (rows (world st));
                  issued := issued (world st) ++
                            [ReplaceInto (ID (session st)) encoded createdAt createdAt expiredAt];
                  logged := logged (world st);
                  driver := tail (driver (world st)) |} |}.
Proof.
  unfold insert.
  destruct (read_created _ _ _) as [createdAt|]; [|discriminate].
  destruct (read_expires_insert _ _ _ _) as [expiredAt|]; [|discriminate].
  cbn [Values set_Values ID].
  destruct (GobSerialize _) as [encoded|]; [|discriminate].
  destruct (Exec _ _) as [[e|] w'] eqn:HE; cbn [status_of]; [discriminate|].
  intros H. inversion H; subst st'. clear H.
  apply Exec_None_inv in HE. destruct HE as [Hd ->].
  exists createdAt, expiredAt, encoded. repeat split; auto.
Qed.

Lemma save_Done_inv m now st st' :
  IsNew (session st) = false ->
  save m now st = (Done, st') ->
  exists createdAt expiredAt encoded,
    read_created m now (Values (session st)) = Some createdAt /\
    read_expires_save m now (MaxAge m (ctx st)) (Values (session st))
      = Some expiredAt /\
    GobSerialize (strip m (Values (session st))) = Some encoded /\
    driver_answer (world st) = None /\
    st' = {| ctx := ctx st;
             session := set_Values (session st) (strip m (Values (session st)));
             world :=
               {| rows := alter (update_row encoded createdAt expiredAt)
                            (ID (session st)) (rows (world st));
                  issued := issued (world st) ++
                            [UpdateWhereId encoded createdAt expiredAt (ID (session st))];
                  logged := logged (world st);
                  driver := tail (driver (world st)) |} |}.
Proof.
  intros Hnew. unfold save. rewrite Hnew.
  destruct (read_created _ _ _) as [createdAt|]; [|discriminate].
  destruct (read_expires_save _ _ _ _) as [expiredAt|]; [|discriminate].
  cbn [Values set_Values ID].
  destruct (GobSerialize _) as [encoded|]; [|discriminate].
  destruct (Exec _ _) as [[e|] w'] eqn:HE; cbn [status_of]; [discriminate|].
  intros H. inversion H; subst st'. clear H.
  apply Exec_None_inv in HE. destruct HE as [Hd ->].
  exists createdAt, expiredAt, encoded. repeat split; auto.
Qed.

(** How [Save] splits into its three paths. *)
Lemma Save_delete_path m now key st :
  CookieOptionsMaxAge (ctx st) < 0 -> Save m now key st = Delete m st.
Proof.
  intros H. unfold Save.
  destruct (Z.ltb_spec (CookieOptionsMaxAge (ctx st)) 0); [reflexivity|lia].
Qed.

Lemma Save_Done_inv m now key st st' :
  0 <= CookieOptionsMaxAge (ctx st) ->
  Save m now key st = (Done, st') ->
  exists st1 encoded,
    (if (String.length (ID (session st)) =? 0)%nat
     then insert m now (with_session st (set_ID (session st) (newSessionID key)))
     else save m now st) = (Done, st1) /\
    EncodeMulti (Name (session st1)) (ID (session st1)) (Codecs m) = Some encoded /\
    st' = {| ctx := SetCookie (ctx st1) (Name (session st1)) encoded None;
             session := session st1; world := world st1 |}.
Proof.
  intros Hage. unfold Save.
  destruct (Z.ltb_spec (CookieOptionsMaxAge (ctx st)) 0); [lia|].
  destruct (if (String.length (ID (session st)) =? 0)%nat then _ else _)
    as [written st1].
  destruct written; try discriminate.
  destruct (EncodeMulti _ _ _) as [encoded|] eqn:Henc; [|discriminate].
  intros Heq. inversion Heq. exists st1, encoded. repeat split; auto.
Qed.

End StoreFacts.

(** ** The identifier of a new session *)

Section Identifier.

Context {lib : Collaborators}.

Lemma insert_keeps_ID (m : SQLStore) now st r st' :
  insert m now st = (r, st') -> ID (session st') = ID (session st).
Proof.
  unfold insert.
  destruct (read_created _ _ _); [|intros H; inversion H; reflexivity].
  destruct (read_expires_insert _ _ _ _); [|intros H; inversion H; reflexivity].
  cbn [Values set_Values].
  destruct (GobSerialize _); [|intros H; inversion H; reflexivity].
  destruct (Exec _ _). intros H; inversion H; reflexivity.
Qed.

Lemma Save_new_identifier (m : SQLStore) now key st st' :
  0 <= CookieOptionsMaxAge (ctx st) ->
  ID (session st) = "" ->
  Save m now key st = (Done, st') ->
  ID (session st') = newSessionID key.
Proof.
  intros Hage Hid Hsave.
  destruct (Save_Done_inv m now key st st' Hage Hsave) as (st1 & enc & Hw & _ & ->).
  rewrite Hid in Hw. cbn in Hw. cbn [session].
  apply insert_keeps_ID in Hw. rewrite Hw. reflexivity.
Qed.

Lemma Save_sets_identifier_shape (m : SQLStore) now key st st' :
  0 <= CookieOptionsMaxAge (ctx st) ->
  ID (session st) = "" ->
  length key = 32%nat ->
  Save m now key st = (Done, st') ->
  ID (session st') = newSessionID key /\
  String.length (ID (session st')) = 52%nat.
Proof.
  intros Hage Hid Hkey Hsave.
  rewrite (Save_new_identifier m now key st st' Hage Hid Hsave).
  split; [reflexivity|].
  rewrite (proj2 (newSessionID_shape key)), Hkey. reflexivity.
Qed.

End Identifier.

(** C7 (amended): when the cookie policy's max-age is not negative, a
    successful [Save] of a session with an empty identifier sets the
    identifier to the base32 encoding of the 32 random bytes with the
    padding trimmed, which is a string of 52 characters of the base32
    alphabet, none of them the padding character. *)
Theorem Save_sets_52_character_identifier
    {lib : Collaborators} (m : SQLStore) (now : Z) (key : list Byte.byte)
    (st st' : State) :
  0 <= CookieOptionsMaxAge (ctx st) ->
  ID (session st) = "" ->
  length key = 32%nat ->
  Save m now key st = (Done, st') ->
  ID (session st') = TrimRight (EncodeToString key) "=" /\
  String.length (ID (session st')) = 52%nat /\
  Forall (fun c => In c encodeStd) (list_ascii_of_string (ID (session st'))) /\
  ~ In padChar (list_ascii_of_string (ID (session st'))).
Proof.
  intros Hage Hid Hkey Hsave.
  rewrite (Save_new_identifier m now key st st' Hage Hid Hsave).
  destruct (newSessionID_shape key) as [Hchars Hlen].
  split; [reflexivity|]. split; [rewrite Hlen, Hkey; reflexivity|].
  split; [exact Hchars|].
  intros Hin. rewrite Forall_forall in Hchars.
  apply list_elem_of_In, Hchars in Hin. exact (alphabet_not_pad _ Hin eq_refl).
Qed.

Lemma Save_sets_52_character_identifier_witness :
  String.length
    (ID (session (snd (Save sampleStore 1000 zeroKey (freshState 0 ∅))))) = 52%nat.
Proof.
  refine (proj1 (proj2 (Save_sets_52_character_identifier
            sampleStore 1000 zeroKey (freshState 0 ∅)
            (snd (Save sampleStore 1000 zeroKey (freshState 0 ∅))) _ _ _ _))).
  - vm_compute. discriminate.
  - reflexivity.
  - reflexivity.
  - vm_compute. reflexivity.
Defined.

(** C7 as stated fails: the identifier made from 32 bytes has 52
    characters, not 26; and with a negative max-age [Save] succeeds by
    deleting and leaves the identifier empty. *)
Lemma Save_identifier_is_not_26_characters :
  (fst (Save sampleStore 1000 zeroKey (freshState 0 ∅)) = Done /\
   String.length
     (ID (session (snd (Save sampleStore 1000 zeroKey (freshState 0 ∅))))) <> 26%nat) /\
  (fst (Save sampleStore 1000 zeroKey (freshState (-1) ∅)) = Done /\
   ID (session (snd (Save sampleStore 1000 zeroKey (freshState (-1) ∅)))) = "").
Proof.
  split; split; vm_compute; try reflexivity. discriminate.
Qed.

(** ** Saving and loading back *)

Section RoundTrip.

Context {lib : Collaborators}.

Lemma QueryRow_found (id : string) (w : World) (r : sessionRow) :
  driver_answer w = None -> rows w !! id = Some r ->
  QueryRow id w =
    (inr r, {| rows := rows w; issued := issued w ++ [SelectWhereId id];
               logged := logged w; driver := tail (driver w) |}).
Proof. intros Hd Hr. unfold QueryRow. rewrite Hd, Hr. reflexivity. Qed.

Lemma QueryRow_missing (id : string) (w : World) :
  driver_answer w = None -> rows w !! id = None ->
  QueryRow id w =
    (inl ErrNoRows, {| rows := rows w; issued := issued w ++ [SelectWhereId id];
                       logged := logged w; driver := tail (driver w) |}).
Proof. intros Hd Hr. unfold QueryRow. rewrite Hd, Hr. reflexivity. Qed.

Lemma QueryRow_failed (id : string) (w : World) (msg : string) :
  driver_answer w = Some msg ->
  QueryRow id w =
    (inl (ErrDriver msg),
     {| rows := rows w; issued := issued w ++ [SelectWhereId id];
        logged := logged w; driver := tail (driver w) |}).
Proof. intros Hd. unfold QueryRow. rewrite Hd. reflexivity. Qed.

(** Loading a row that is there and has not expired. *)
Lemma load_live_row (m : SQLStore) now (s : Session) (w : World)
    (r : sessionRow) (decoded : gmap string any) :
  driver_answer w = None ->
  rows w !! ID s = Some r ->
  now <= row_expires r ->
  GobDeserialize (row_data r) = Some decoded ->
  load m now s w =
    (Done,
     set_Values s
       (<[keyPrefix m +:+ "expires" := AInt64 (row_expires r)]>
          (<[keyPrefix m +:+ "modified" := AInt64 (row_modified r)]>
             (<[keyPrefix m +:+ "created" := AInt64 (row_created r)]>
                (decoded ∪ Values s)))),
     {| rows := rows w; issued := issued w ++ [SelectWhereId (ID s)];
        logged := logged w; driver := tail (driver w) |}).
Proof.
  intros Hd Hr Hlive Hdec. unfold load.
  rewrite (QueryRow_found _ _ _ Hd Hr).
  destruct (Z.ltb_spec (row_expires r) now); [lia|].
  rewrite Hdec. reflexivity.
Qed.

End RoundTrip.

(** C4 (amended): when the cookie policy's max-age is not negative, a
    successful [Save] of a session with an empty identifier leaves it with
    a non-empty identifier, and a following [load] by that identifier,
    before the row expires, succeeds and gives a value map that agrees
    with the one the session had when it was saved once the three reserved
    keys are removed from both; the saved session itself is left with the
    reserved keys removed, and the loaded one has them set again from the
    row. *)
Theorem Save_then_load_round_trip
    {lib : Collaborators} (m : SQLStore) (now nowL : Z) (key : list Byte.byte)
    (name : string) (st st' : State) :
  0 <= CookieOptionsMaxAge (ctx st) ->
  ID (session st) = "" ->
  length key = 32%nat ->
  Save m now key st = (Done, st') ->
  (forall b, GobSerialize (strip m (Values (session st))) = Some b ->
             GobDeserialize b = Some (strip m (Values (session st)))) ->
  driver_answer (world st') = None ->
  (forall r, rows (world st') !! ID (session st') = Some r -> nowL <= row_expires r) ->
  ID (session st') <> "" /\
  Values (session st') = strip m (Values (session st)) /\
  exists s w r,
    load m nowL (set_ID (NewSession name) (ID (session st'))) (world st') = (Done, s, w) /\
    strip m (Values s) = strip m (Values (session st)) /\
    rows (world st') !! ID (session st') = Some r /\
    Values s !! (keyPrefix m +:+ "created") = Some (AInt64 (row_created r)) /\
    Values s !! (keyPrefix m +:+ "modified") = Some (AInt64 (row_modified r)) /\
    Values s !! (keyPrefix m +:+ "expires") = Some (AInt64 (row_expires r)).
Proof.
  intros Hage Hid Hkey Hsave Hgob Hdrv Hlive.
  destruct (Save_sets_identifier_shape m now key st st' Hage Hid Hkey Hsave)
    as [Hnew Hlen].
  split.
  { intros Hempty. rewrite Hempty in Hlen. discriminate Hlen. }
  destruct (Save_Done_inv m now key st st' Hage Hsave) as (st1 & enc & Hw & _ & Hst').
  rewrite Hid in Hw. cbn [String.length Nat.eqb] in Hw.
  apply insert_Done_inv in Hw.
  destruct Hw as (createdAt & expiredAt & encoded & _ & _ & Hser & _ & Hst1).
  cbn [with_session session ctx world set_ID Values ID] in Hser, Hst1.
  subst st1. subst st'. cbn [session world ctx set_Values Values ID rows] in *.
  split; [reflexivity|].
  set (id := newSessionID key) in *.
  set (r := mkRow id encoded createdAt createdAt expiredAt).
  assert (Hrow : (<[id := r]> (rows (world st)) : gmap string sessionRow) !! id = Some r)
    by apply lookup_insert_eq.
  pose proof (Hgob encoded Hser) as Hdec.
  pose proof (Hlive r Hrow) as Hr.
  eexists _, _, r. split; [|split; [|split]].
  - apply (load_live_row m nowL (set_ID (NewSession name) id) _ r
             (strip m (Values (session st)))); assumption.
  - cbn [set_Values Values set_ID NewSession].
    rewrite strip_reinject, (right_id_L ∅ (∪)). apply strip_strip.
  - exact Hrow.
  - destruct (reserved_keys_distinct m) as (Hce & Hcm & Hem).
    cbn [set_Values Values set_ID NewSession].
    repeat split.
    + rewrite lookup_insert_ne by congruence.
      rewrite lookup_insert_ne by congruence. apply lookup_insert_eq.
    + rewrite lookup_insert_ne by congruence. apply lookup_insert_eq.
    + apply lookup_insert_eq.
Qed.

Lemma Save_then_load_round_trip_witness :
  exists s w,
    load sampleStore 1005
      (set_ID (NewSession "sess")
         (ID (session (snd (Save sampleStore 1000 zeroKey (freshState 0 sampleValues))))))
      (world (snd (Save sampleStore 1000 zeroKey (freshState 0 sampleValues))))
    = (Done, s, w) /\
    strip sampleStore (Values s) = strip sampleStore sampleValues.
Proof.
  destruct (Save_then_load_round_trip sampleStore 1000 1005 zeroKey "sess"
              (freshState 0 sampleValues)
              (snd (Save sampleStore 1000 zeroKey (freshState 0 sampleValues))))
    as (_ & _ & s & w & r & Hload & Hvalues & _).
  - vm_compute. discriminate.
  - reflexivity.
  - reflexivity.
  - vm_compute. reflexivity.
  - intros b Hb. vm_compute in Hb. injection Hb as <-. vm_compute. reflexivity.
  - reflexivity.
  - intros r Hr. vm_compute in Hr. injection Hr as <-. vm_compute. discriminate.
  - exists s, w. split; [exact Hload|exact Hvalues].
Defined.

(** C4 as stated fails: with a negative max-age in the cookie policy,
    [Save] of a session with an empty identifier succeeds by deleting; the
    identifier stays empty and a load by it finds no row. *)
Lemma Save_negative_max_age_keeps_identifier_empty :
  fst (Save sampleStore 1000 zeroKey (freshState (-1) sampleValues)) = Done /\
  ID (session (snd (Save sampleStore 1000 zeroKey (freshState (-1) sampleValues)))) = "" /\
  fst (fst (load sampleStore 1005
              (session (snd (Save sampleStore 1000 zeroKey (freshState (-1) sampleValues))))
              (world (snd (Save sampleStore 1000 zeroKey (freshState (-1) sampleValues))))))
  = Failed ErrNoRows.
Proof. repeat split; vm_compute; reflexivity. Qed.

(** ** Loading an expired row *)

(** C5: when the select finds the row and its [expires] is strictly less
    than the current time, [load] returns the session-expired error, which
    is not the no-rows error, writes one log entry, and issues nothing but
    the select: the table is as it was and the session is untouched.  A row
    whose [expires] equals the current time is not reported as expired and
    nothing is logged for it. *)
Theorem load_expired_row
    {lib : Collaborators} (m : SQLStore) (now : Z) (s : Session) (w : World)
    (r : sessionRow) :
  driver_answer w = None ->
  rows w !! ID s = Some r ->
  (row_expires r < now ->
     load m now s w =
       (Failed ErrSessionExpired, s,
        {| rows := rows w;
           issued := issued w ++ [SelectWhereId (ID s)];
           logged := logged w ++ [LogSessionExpired (row_expires r) now];
           driver := tail (driver w) |}) /\
     Failed ErrSessionExpired <> Failed ErrNoRows) /\
  (row_expires r = now ->
     fst (fst (load m now s w)) <> Failed ErrSessionExpired /\
     logged (snd (load m now s w)) = logged w /\
     rows (snd (load m now s w)) = rows w).
Proof.
  intros Hd Hr. split.
  - intros Hlt. split; [|discriminate].
    unfold load. rewrite (QueryRow_found _ _ _ Hd Hr).
    destruct (Z.ltb_spec (row_expires r) now); [reflexivity|lia].
  - intros Heq. unfold load. rewrite (QueryRow_found _ _ _ Hd Hr).
    destruct (Z.ltb_spec (row_expires r) now); [lia|].
    destruct (GobDeserialize (row_data r)); cbn; repeat split; discriminate.
Qed.

Lemma load_expired_row_witness :
  fst (fst (load sampleStore 500 (sessionOf "a" ∅ false)
              (worldOf (oneRow "a" 0 0 499) []))) = Failed ErrSessionExpired /\
  fst (fst (load sampleStore 500 (sessionOf "a" ∅ false)
              (worldOf (oneRow "a" 0 0 500) []))) <> Failed ErrSessionExpired.
Proof.
  split.
  - destruct (load_expired_row sampleStore 500 (sessionOf "a" ∅ false)
                (worldOf (oneRow "a" 0 0 499) [])
                (mkRow "a" [Byte.x00] 0 0 499) eq_refl eq_refl) as [Hexp _].
    destruct (Hexp eq_refl) as [-> _]. reflexivity.
  - destruct (load_expired_row sampleStore 500 (sessionOf "a" ∅ false)
                (worldOf (oneRow "a" 0 0 500) [])
                (mkRow "a" [Byte.x00] 0 0 500) eq_refl eq_refl) as [_ Hlive].
    exact (proj1 (Hlive eq_refl)).
Defined.

(** ** The error contract of [SQLStore_New] *)

Lemma length_zero_empty (s : string) : (String.length s =? 0)%nat = true <-> s = "".
Proof.
  destruct s; simpl; split; intros H; try reflexivity; discriminate H.
Qed.

(** C6: with a cookie present, [SQLStore_New] returns
    - the decode error, with a session that is new and has no values, when
      the cookie fails to decode;
    - no error, with a session that is new, has no values and carries the
      decoded identifier, when the select finds no row or finds a row whose
      [expires] is less than the current time;
    - the error of [load] unchanged when the payload fails to deserialise
      or the driver fails. *)
Theorem SQLStore_New_error_contract
    {lib : Collaborators} (m : SQLStore) (now : Z) (c : Context) (name : string)
    (w : World) :
  GetCookie c name <> "" ->
  let fresh := {| ID := ""; Name := name; Values := ∅; IsNew := true |} in
  (DecodeMulti name (GetCookie c name) (Codecs m) = None ->
     SQLStore_New m now c name w = (Failed ErrDecode, fresh, w)) /\
  (forall id, DecodeMulti name (GetCookie c name) (Codecs m) = Some id ->
     let session := {| ID := id; Name := name; Values := ∅; IsNew := true |} in
     (driver_answer w = None -> rows w !! id = None ->
        exists w', SQLStore_New m now c name w = (Done, session, w')) /\
     (forall r, driver_answer w = None -> rows w !! id = Some r ->
        row_expires r < now ->
        exists w', SQLStore_New m now c name w = (Done, session, w')) /\
     (forall r, driver_answer w = None -> rows w !! id = Some r ->
        now <= row_expires r -> GobDeserialize (row_data r) = None ->
        exists w', SQLStore_New m now c name w = (Failed ErrDeserialize, session, w')) /\
     (forall msg, driver_answer w = Some msg ->
        exists w',
          SQLStore_New m now c name w = (Failed (ErrDriver msg), session, w'))).
Proof.
  intros Hcookie fresh.
  assert (Hlen : (String.length (GetCookie c name) =? 0)%nat = false).
  { destruct (String.length (GetCookie c name) =? 0)%nat eqn:E; [|reflexivity].
    apply length_zero_empty in E. contradiction. }
  split.
  - intros Hdec. unfold SQLStore_New. rewrite Hlen, Hdec. reflexivity.
  - intros id Hdec session. unfold SQLStore_New. rewrite Hlen, Hdec.
    change (set_ID (set_IsNew (NewSession name) true) id) with session.
    repeat split.
    + intros Hd Hr. unfold load. change (ID session) with id.
      rewrite (QueryRow_missing _ _ Hd Hr). cbn. eauto.
    + intros r Hd Hr Hexp. unfold load. change (ID session) with id.
      rewrite (QueryRow_found _ _ _ Hd Hr).
      destruct (Z.ltb_spec (row_expires r) now); [|lia]. cbn. eauto.
    + intros r Hd Hr Hlive Hgob. unfold load. change (ID session) with id.
      rewrite (QueryRow_found _ _ _ Hd Hr).
      destruct (Z.ltb_spec (row_expires r) now); [lia|].
      rewrite Hgob. cbn. eauto.
    + intros msg Hd. unfold load. change (ID session) with id.
      rewrite (QueryRow_failed _ _ _ Hd). cbn. eauto.
Qed.

Lemma SQLStore_New_error_contract_witness :
  SQLStore_New sampleStore 500 (requestWith 0 {[ "sess" := "forged" ]}) "sess"
    (worldOf (oneRow "a" 0 0 499) [])
  = (Failed ErrDecode,
     {| ID := ""; Name := "sess"; Values := ∅; IsNew := true |},
     worldOf (oneRow "a" 0 0 499) []) /\
  exists w',
    SQLStore_New sampleStore 500 (requestWith 0 {[ "sess" := "a" ]}) "sess"
      (worldOf (oneRow "a" 0 0 499) [])
    = (Done, {| ID := "a"; Name := "sess"; Values := ∅; IsNew := true |}, w').
Proof.
  split.
  - refine (proj1 (SQLStore_New_error_contract sampleStore 500
                     (requestWith 0 {[ "sess" := "forged" ]}) "sess"
                     (worldOf (oneRow "a" 0 0 499) []) _) eq_refl).
    vm_compute. discriminate.
  - assert (Hcookie : GetCookie (requestWith 0 {[ "sess" := "a" ]}) "sess" <> "")
      by (vm_compute; discriminate).
    destruct (proj2 (SQLStore_New_error_contract sampleStore 500
                       (requestWith 0 {[ "sess" := "a" ]}) "sess"
                       (worldOf (oneRow "a" 0 0 499) []) Hcookie) "a" eq_refl)
      as (_ & Hexpired & _).
    exact (Hexpired (mkRow "a" [Byte.x00] 0 0 499) eq_refl eq_refl eq_refl).
Defined.

(** ** The unchecked reads of the reserved keys *)

(** C9: [insert] and [save] read the reserved keys [created] and [expires]
    with an unchecked [int64] assertion.  When each of the two keys, if
    present, is bound to an [int64], neither operation panics; when either
    key is bound to a value that is not nil and not an [int64], both
    operations panic rather than return an error. *)
Theorem reserved_key_reads_panic_only_on_non_int64
    {lib : Collaborators} (m : SQLStore) (now : Z) (st : State) :
  let values := Values (session st) in
  let kc := keyPrefix m +:+ "created" in
  let ke := keyPrefix m +:+ "expires" in
  ((forall v, values !! kc = Some v -> exists z, v = AInt64 z) ->
   (forall v, values !! ke = Some v -> exists z, v = AInt64 z) ->
   fst (insert m now st) <> Panicked /\ fst (save m now st) <> Panicked) /\
  (forall v, v <> ANil -> assert_int64 v = None ->
   values !! kc = Some v \/ values !! ke = Some v ->
   fst (insert m now st) = Panicked /\ fst (save m now st) = Panicked /\
   (forall e, fst (insert m now st) <> Failed e) /\
   (forall e, fst (save m now st) <> Failed e)).
Proof.
  intros values kc ke. split.
  - intros Hc He.
    assert (Hrc : exists z, read_created m now values = Some z).
    { unfold read_created, index. fold kc. destruct (values !! kc) as [v|] eqn:E.
      - destruct (Hc v eq_refl) as [z ->]. cbn. eauto.
      - cbn. eauto. }
    assert (Hri : forall a, exists z, read_expires_insert m now a values = Some z).
    { intros a. unfold read_expires_insert, index. fold ke.
      destruct (values !! ke) as [v|] eqn:E.
      - destruct (He v eq_refl) as [z ->]. cbn. eauto.
      - cbn. eauto. }
    assert (Hrs : forall a, exists z, read_expires_save m now a values = Some z).
    { intros a. unfold read_expires_save, index. fold ke.
      destruct (values !! ke) as [v|] eqn:E.
      - destruct (He v eq_refl) as [z ->]. cbn. eauto.
      - cbn. eauto. }
    destruct Hrc as [zc Hzc].
    assert (Hins : fst (insert m now st) <> Panicked).
    { unfold insert. fold values. rewrite Hzc.
      destruct (Hri (MaxAge m (ctx st))) as [ze ->].
      cbn [Values set_Values]. destruct (GobSerialize _); [|discriminate].
      destruct (Exec _ _) as [[e|] w']; discriminate. }
    split; [exact Hins|].
    unfold save. destruct (IsNew (session st)); [exact Hins|].
    fold values. rewrite Hzc.
    destruct (Hrs (MaxAge m (ctx st))) as [ze ->].
    cbn [Values set_Values]. destruct (GobSerialize _); [|discriminate].
    destruct (Exec _ _) as [[e|] w']; discriminate.
  - intros v Hnil Hbad Hbound.
    assert (Hins : fst (insert m now st) = Panicked).
    { unfold insert. fold values.
      destruct (read_created m now values) as [zc|] eqn:Hzc; [|reflexivity].
      destruct Hbound as [Hb|Hb].
      - unfold read_created, index in Hzc. fold kc in Hzc. rewrite Hb in Hzc.
        cbn in Hzc. destruct v; try contradiction; discriminate.
      - unfold read_expires_insert, index. fold ke. rewrite Hb. cbn.
        destruct v; try contradiction; try discriminate; reflexivity. }
    assert (Hsav : fst (save m now st) = Panicked).
    { unfold save. destruct (IsNew (session st)); [exact Hins|]. fold values.
      destruct (read_created m now values) as [zc|] eqn:Hzc; [|reflexivity].
      destruct Hbound as [Hb|Hb].
      - unfold read_created, index in Hzc. fold kc in Hzc. rewrite Hb in Hzc.
        cbn in Hzc. destruct v; try contradiction; discriminate.
      - unfold read_expires_save, index. fold ke. rewrite Hb. cbn.
        destruct v; try contradiction; try discriminate; reflexivity. }
    rewrite Hins, Hsav. repeat split; discriminate.
Qed.

Lemma reserved_key_reads_panic_only_on_non_int64_witness :
  (fst (insert sampleStore 100
          (mkState (requestWith 0 ∅)
             (sessionOf "a" {[ "_created" := AInt64 7 ]} false) emptyWorld)) <> Panicked) /\
  (fst (save sampleStore 100
          (mkState (requestWith 0 ∅)
             (sessionOf "a" {[ "_expires" := AString "soon" ]} false) emptyWorld)) = Panicked).
Proof.
  split.
  - refine (proj1 (proj1 (reserved_key_reads_panic_only_on_non_int64 sampleStore 100
                     (mkState (requestWith 0 ∅)
                        (sessionOf "a" {[ "_created" := AInt64 7 ]} false) emptyWorld))
                     _ _)).
    + intros v Hv. vm_compute in Hv. injection Hv as <-. exists 7. reflexivity.
    + intros v Hv. vm_compute in Hv. discriminate Hv.
  - refine (proj1 (proj2 (proj2 (reserved_key_reads_panic_only_on_non_int64 sampleStore 100
                     (mkState (requestWith 0 ∅)
                        (sessionOf "a" {[ "_expires" := AString "soon" ]} false) emptyWorld))
                     (AString "soon") _ eq_refl (or_intror eq_refl)))).
    discriminate.
Defined.

(** ** Delete *)

Lemma clear_values (values : gmap string any) :
  map_fold (fun k _ acc => delete k acc) values values = ∅.
Proof.
  enough (H : forall acc : gmap string any,
             forall k, map_fold (fun k _ a => delete k a) acc values !! k =
                       match values !! k with Some _ => None | None => acc !! k end).
  { apply map_eq. intros k. rewrite H, lookup_empty.
    destruct (values !! k); reflexivity. }
  intros acc.
  apply (map_fold_weak_ind
           (fun r (v : gmap string any) =>
              forall k, r !! k = match v !! k with Some _ => None | None => acc !! k end)).
  - intros k. rewrite lookup_empty. reflexivity.
  - intros i x v r Hi IH k. rewrite lookup_delete, lookup_insert.
    case_decide; [reflexivity|]. apply IH.
Qed.

(** C10: [Delete] expires the response cookie and empties the value map
    before it issues the delete statement; when that statement fails,
    [Delete] returns the driver's error and leaves the session with an
    empty value map and the context with the expiring cookie set, while
    the row is still in the table. *)
Theorem Delete_failure_leaves_session_cleared
    {lib : Collaborators} (m : SQLStore) (st : State) (msg : string) :
  ID (session st) <> "" ->
  driver_answer (world st) = Some msg ->
  exists st',
    Delete m st = (Failed (ErrDriver msg), st') /\
    Values (session st') = ∅ /\
    responseCookies (ctx st') =
      responseCookies (ctx st) ++ [mkCookieCall (Name (session st)) "" (Some (-1))] /\
    issued (world st') = issued (world st) ++ [DeleteWhereId (ID (session st))] /\
    rows (world st') = rows (world st).
Proof.
  intros Hid Hd. unfold Delete, Remove. cbn [ID set_Values].
  destruct (String.length (ID (session st)) =? 0)%nat eqn:E.
  { apply length_zero_empty in E. contradiction. }
  rewrite (Exec_failed _ _ _ Hd). cbn [status_of].
  eexists. split; [reflexivity|]. cbn. rewrite clear_values. auto.
Qed.

Lemma Delete_failure_leaves_session_cleared_witness :
  exists st',
    Delete sampleStore
      (mkState (requestWith 0 ∅) (sessionOf "a" sampleValues false)
         (worldOf (oneRow "a" 0 0 1000) [Some "connection lost"]))
    = (Failed (ErrDriver "connection lost"), st') /\
    Values (session st') = ∅.
Proof.
  destruct (Delete_failure_leaves_session_cleared sampleStore
              (mkState (requestWith 0 ∅) (sessionOf "a" sampleValues false)
                 (worldOf (oneRow "a" 0 0 1000) [Some "connection lost"]))
              "connection lost") as (st' & Hdel & Hvalues & _).
  - discriminate.
  - reflexivity.
  - exists st'. split; assumption.
Defined.

(** ** Which columns a save writes *)

(** C2 (amended): a successful [Save] on the insert path (the session has
    no identifier, or is flagged new) issues the insert-or-replace
    statement, which writes [modified], with the value it writes to
    [created], and the row it leaves holds that value.  A successful [Save]
    on the update path issues the update statement, which writes [data],
    [created] and [expires] and not [modified]: every row keeps the
    [modified] it had. *)
Theorem Save_writes_modified_on_insert_only
    {lib : Collaborators} (m : SQLStore) (now : Z) (key : list Byte.byte)
    (st st' : State) :
  0 <= CookieOptionsMaxAge (ctx st) ->
  Save m now key st = (Done, st') ->
  (ID (session st) = "" \/ IsNew (session st) = true ->
     exists data created expires,
       issued (world st') =
         issued (world st) ++ [ReplaceInto (ID (session st')) data created created expires] /\
       writes_column Cmodified
         (ReplaceInto (ID (session st')) data created created expires) = true /\
       rows (world st') !! ID (session st') =
         Some (mkRow (ID (session st')) data created created expires)) /\
  (ID (session st) <> "" -> IsNew (session st) = false ->
     exists data created expires,
       issued (world st') =
         issued (world st) ++ [UpdateWhereId data created expires (ID (session st))] /\
       writes_column Cmodified
         (UpdateWhereId data created expires (ID (session st))) = false /\
       forall id r, rows (world st) !! id = Some r ->
         exists r', rows (world st') !! id = Some r' /\
                    row_modified r' = row_modified r).
Proof.
  intros Hage Hsave.
  destruct (Save_Done_inv m now key st st' Hage Hsave) as (st1 & enc & Hw & _ & ->).
  cbn [session world].
  destruct (String.length (ID (session st)) =? 0)%nat eqn:Hlen.
  - (* no identifier: insert *)
    apply insert_Done_inv in Hw.
    destruct Hw as (createdAt & expiredAt & encoded & _ & _ & _ & _ & ->).
    cbn [with_session session ctx world set_ID set_Values Values ID issued rows].
    split.
    + intros _. exists encoded, createdAt, expiredAt.
      repeat split. apply lookup_insert_eq.
    + intros Hid. apply length_zero_empty in Hlen. contradiction.
  - assert (Hid : ID (session st) <> "").
    { intros E. rewrite E in Hlen. discriminate Hlen. }
    destruct (IsNew (session st)) eqn:Hnew.
    + (* flagged new: save routes to insert *)
      unfold save in Hw. rewrite Hnew in Hw.
      apply insert_Done_inv in Hw.
      destruct Hw as (createdAt & expiredAt & encoded & _ & _ & _ & _ & ->).
      cbn [session ctx world set_Values Values ID issued rows].
      split.
      * intros _. exists encoded, createdAt, expiredAt.
        repeat split. apply lookup_insert_eq.
      * intros _ Hfalse. discriminate Hfalse.
    + (* update *)
      apply (save_Done_inv m now st st1 Hnew) in Hw.
      destruct Hw as (createdAt & expiredAt & encoded & _ & _ & _ & _ & ->).
      cbn [session ctx world set_Values Values ID issued rows].
      split.
      * intros [E|E]; [contradiction|discriminate E].
      * intros _ _. exists encoded, createdAt, expiredAt.
        repeat split. intros id r Hr. rewrite lookup_alter.
        case_decide as Hcase.
        -- subst id. rewrite Hr. cbn. eexists. split; reflexivity.
        -- exists r. split; [exact Hr|reflexivity].
Qed.

Lemma Save_writes_modified_on_insert_only_witness :
  exists data created expires,
    issued (world (snd (Save sampleStore 100 zeroKey
                          (existingState ∅ (oneRow "a" 0 5 50))))) =
      [UpdateWhereId data created expires "a"] /\
    writes_column Cmodified (UpdateWhereId data created expires "a") = false.
Proof.
  destruct (proj2 (Save_writes_modified_on_insert_only sampleStore 100 zeroKey
                     (existingState ∅ (oneRow "a" 0 5 50))
                     (snd (Save sampleStore 100 zeroKey
                             (existingState ∅ (oneRow "a" 0 5 50))))
                     ltac:(vm_compute; discriminate)
                     ltac:(vm_compute; reflexivity))
              ltac:(discriminate) eq_refl)
    as (data & created & expires & Hissued & Hwrites & _).
  exists data, created, expires. split; assumption.
Defined.

(** C2 as stated fails: a successful [Save] on the update path, at time
    100, of a session whose row has [modified] 5 issues one statement,
    which does not write [modified], and the row still has [modified] 5. *)
Lemma Save_update_does_not_write_modified :
  let st := existingState ∅ (oneRow "a" 0 5 50) in
  fst (Save sampleStore 100 zeroKey st) = Done /\
  issued (world (snd (Save sampleStore 100 zeroKey st))) =
    [UpdateWhereId [Byte.x00] 100 110 "a"] /\
  existsb (writes_column Cmodified)
    (issued (world (snd (Save sampleStore 100 zeroKey st)))) = false /\
  rows (world (snd (Save sampleStore 100 zeroKey st))) !! "a" =
    Some (mkRow "a" [Byte.x00] 100 5 110).
Proof. repeat split; vm_compute; reflexivity. Qed.

(** ** The expiry written by an update *)

Lemma wrap64_in_range (z : Z) : int64_range z -> wrap64 z = z.
Proof.
  unfold int64_range, wrap64. intros Hz.
  rewrite Z.mod_small by lia. lia.
Qed.

(** C3 (amended): an update of an existing session whose row is in the
    table stores [max e (now + max-age)] as [expires] when the value map
    carries a prior value [e], and [now + max-age] when it carries none,
    the sum being the [int64] sum, which is the exact one when that is in
    range.  Hence a save whose value map carries the stored [expires], as
    it does after a load, never decreases it.  The save removes the
    reserved keys from the session's value map, so a further save of the
    same session without a load in between carries no prior value. *)
Theorem save_update_expires
    {lib : Collaborators} (m : SQLStore) (now : Z) (st st' : State)
    (r : sessionRow) :
  IsNew (session st) = false ->
  rows (world st) !! ID (session st) = Some r ->
  save m now st = (Done, st') ->
  let ke := keyPrefix m +:+ "expires" in
  let candidate := add64 now (MaxAge m (ctx st)) in
  exists r',
    rows (world st') !! ID (session st) = Some r' /\
    (forall e, Values (session st) !! ke = Some (AInt64 e) ->
       row_expires r' = Z.max e candidate) /\
    (index (Values (session st)) ke = ANil -> row_expires r' = candidate) /\
    (int64_range (now + MaxAge m (ctx st)) -> candidate = now + MaxAge m (ctx st)) /\
    (Values (session st) !! ke = Some (AInt64 (row_expires r)) ->
       row_expires r <= row_expires r') /\
    Values (session st') !! ke = None.
Proof.
  intros Hnew Hr Hsave ke candidate.
  apply (save_Done_inv m now st st' Hnew) in Hsave.
  destruct Hsave as (createdAt & expiredAt & encoded & _ & Hexp & _ & _ & ->).
  cbn [session world rows set_Values Values].
  exists (update_row encoded createdAt expiredAt r).
  assert (Hcarried : forall e, Values (session st) !! ke = Some (AInt64 e) ->
                               expiredAt = Z.max e candidate).
  { intros e He. unfold read_expires_save, index in Hexp. fold ke in Hexp.
    rewrite He in Hexp. cbn in Hexp. fold candidate in Hexp.
    injection Hexp as <-. destruct (Z.ltb_spec e candidate); lia. }
  repeat split.
  - rewrite lookup_alter. case_decide; [|congruence]. rewrite Hr. reflexivity.
  - exact Hcarried.
  - intros Hnil. unfold read_expires_save in Hexp. fold ke in Hexp.
    rewrite Hnil in Hexp. injection Hexp as <-. reflexivity.
  - intros Hrange. apply wrap64_in_range, Hrange.
  - intros He. cbn [update_row row_expires]. rewrite (Hcarried _ He). lia.
  - rewrite lookup_strip. repeat case_decide; try reflexivity. contradiction.
Qed.

Lemma save_update_expires_witness :
  exists r',
    rows (world (snd (save sampleStore 100
                        (existingState carriedExpiry (oneRow "a" 0 0 10000))))) !! "a" = Some r' /\
    row_expires r' = Z.max 10000 (add64 100 10).
Proof.
  destruct (save_update_expires sampleStore 100
              (existingState carriedExpiry (oneRow "a" 0 0 10000))
              (snd (save sampleStore 100
                      (existingState carriedExpiry (oneRow "a" 0 0 10000))))
              (mkRow "a" [Byte.x00] 0 0 10000)
              eq_refl eq_refl ltac:(vm_compute; reflexivity))
    as (r' & Hrow & Hmax & _).
  exists r'. split; [exact Hrow|]. exact (Hmax 10000 eq_refl).
Defined.

(** C3 as stated fails.  With the max-age 10 throughout: a fresh session
    in which the application has set the reserved key [expires] to 10000 is
    saved at time 10; the next request loads it at time 50, which carries
    10000 in the value map, and saves it at time 100 and again at time 101.
    All three saves succeed; the session is not new in the last two, the
    first of which stores 10000 and the second, which finds the reserved
    key removed, 111. *)
Lemma second_save_decreases_expires :
  let created := Save sampleStore 10 zeroKey (freshState 0 carriedExpiry) in
  let id := ID (session (snd created)) in
  let st := returningState sampleStore 50 id (world (snd created)) in
  let first := Save sampleStore 100 zeroKey st in
  let second := Save sampleStore 101 zeroKey (snd first) in
  fst created = Done /\
  IsNew (session st) = false /\
  Values (session st) !! "_expires" = Some (AInt64 10000) /\
  fst first = Done /\ fst second = Done /\
  IsNew (session (snd first)) = false /\
  row_expires <$> rows (world (snd first)) !! id = Some 10000 /\
  row_expires <$> rows (world (snd second)) !! id = Some 111 /\
  111 < 10000.
Proof. repeat split; vm_compute; reflexivity. Qed.

(** What [load] puts under the reserved key is the stored expiry. *)
Lemma load_carries_stored_expires
    {lib : Collaborators} (m : SQLStore) (now : Z) (s s' : Session) (w w' : World)
    (r : sessionRow) :
  rows w !! ID s = Some r ->
  load m now s w = (Done, s', w') ->
  Values s' !! (keyPrefix m +:+ "expires") = Some (AInt64 (row_expires r)) /\
  ID s' = ID s /\ rows w' = rows w.
Proof.
  intros Hr. unfold load, QueryRow.
  destruct (driver_answer w); [discriminate|]. rewrite Hr.
  destruct (row_expires r <? now); [discriminate|].
  destruct (GobDeserialize (row_data r)); [|discriminate].
  intros H. inversion H. cbn. split; [apply lookup_insert_eq|]. auto.
Qed.

(** ** The sweep pass *)

Lemma deleteExpired_issues_one_statement
    {lib : Collaborators} (m : SQLStore) (now : Z) (w : World) :
  issued (snd (deleteExpired m now w)) = issued w ++ [DeleteWhere (gcStmt m) now].
Proof.
  unfold deleteExpired, Exec. destruct (driver_answer w); reflexivity.
Qed.

(** C1 (the code departs from it): on a table whose only row is not expired
    but holds an empty payload created before [now - emptyDataAge], one
    pass of [deleteExpired] succeeds, issues the delete-by-expiry statement
    alone and leaves the row, where the pass of the specification leaves
    none. *)
Theorem deleteExpired_leaves_stale_empty_row :
  let w := worldOf (oneRow "a" 0 0 1000) [] in
  fst (deleteExpired sampleStore 500 w) = None /\
  issued (snd (deleteExpired sampleStore 500 w)) = [DeleteWhere WhereExpiresLt 500] /\
  gc_matches (gcEmptyDataSQL sampleStore) (500 - emptyDataAge sampleStore)
    (mkRow "a" [Byte.x00] 0 0 1000) = true /\
  size (rows (snd (deleteExpired sampleStore 500 w))) = 1%nat /\
  size (sweep_spec sampleStore 500 (rows w)) = 0%nat.
Proof. repeat split; vm_compute; reflexivity. Qed.

(** Whatever fragment a pass completes with the current time, a single
    statement does not do what the specification asks of a pass. *)
Lemma one_statement_is_not_the_specified_pass (frag : gcFragment) :
  exists t : gmap string sessionRow,
    run (DeleteWhere frag 500) t <> sweep_spec sampleStore 500 t.
Proof.
  destruct frag as [|size].
  - exists (oneRow "a" 0 0 1000). intros H.
    apply (f_equal (fun t : gmap string sessionRow => size t)) in H.
    vm_compute in H. discriminate H.
  - exists (oneRow "a" 600 600 100). intros H.
    apply (f_equal (fun t : gmap string sessionRow => t !! "a")) in H.
    assert (Hspec : sweep_spec sampleStore 500 (oneRow "a" 600 600 100) !! "a" = None)
      by (vm_compute; reflexivity).
    rewrite Hspec in H. cbn [run] in H.
    apply map_lookup_filter_None in H. destruct H as [H|H].
    + vm_compute in H. discriminate H.
    + specialize (H (mkRow "a" [Byte.x00] 600 600 100) eq_refl). apply H.
      cbn. apply andb_false_r.
Qed.

(** ** Stopping the sweeper *)

Section SweeperFacts.

Context {lib : Collaborators}.
Variable m : SQLStore.








End SweeperFacts.



(** * Further properties of the store *)

(** ** Delete and Remove *)

Lemma length_nonzero (s : string) : s <> "" -> (String.length s =? 0)%nat = false.
Proof.
  intros Hs. destruct (String.length s =? 0)%nat eqn:E; [|reflexivity].
  apply length_zero_empty in E. contradiction.
Qed.

(** X1: [Delete] of a session without identifier never reaches the database:
    whatever the driver would answer, it returns nil, issues no statement
    and uses up no driver answer; the value map is emptied and the expiring
    cookie is set all the same. *)
Theorem Delete_without_identifier
    {lib : Collaborators} (m : SQLStore) (st : State) :
  ID (session st) = "" ->
  Delete m st =
    (Done,
     {| ctx := SetCookie (ctx st) (Name (session st)) "" (Some (-1));
        session := set_Values (session st) ∅;
        world := world st |}).
Proof.
  intros Hid. unfold Delete, Remove. cbn [ID set_Values].
  rewrite Hid, clear_values. reflexivity.
Qed.

Lemma Delete_without_identifier_witness :
  Delete sampleStore
    (mkState (requestWith 0 ∅) (sessionOf "" sampleValues true)
       (worldOf (oneRow "a" 0 0 1000) [Some "connection lost"]))
  = (Done,
     mkState
       (SetCookie (requestWith 0 ∅) "sess" "" (Some (-1)))
       (sessionOf "" ∅ true)
       (worldOf (oneRow "a" 0 0 1000) [Some "connection lost"])).
Proof.
  exact (Delete_without_identifier sampleStore
           (mkState (requestWith 0 ∅) (sessionOf "" sampleValues true)
              (worldOf (oneRow "a" 0 0 1000) [Some "connection lost"]))
           eq_refl).
Defined.

(** X2: A [Delete] that the driver answers removes the row of the session's
    identifier and no other row; a load by that identifier right after it
    finds no row. *)
Theorem Delete_removes_exactly_the_row
    {lib : Collaborators} (m : SQLStore) (now : Z) (st : State) :
  ID (session st) <> "" ->
  driver_answer (world st) = None ->
  exists st',
    Delete m st = (Done, st') /\
    ID (session st') = ID (session st) /\
    Values (session st') = ∅ /\
    rows (world st') !! ID (session st) = None /\
    (forall id, id <> ID (session st) ->
       rows (world st') !! id = rows (world st) !! id) /\
    (driver_answer (world st') = None ->
       fst (fst (load m now (session st') (world st'))) = Failed ErrNoRows).
Proof.
  intros Hid Hd. unfold Delete, Remove. cbn [ID set_Values].
  rewrite (length_nonzero _ Hid), (Exec_ok _ _ Hd), clear_values.
  cbn [status_of]. eexists. split; [reflexivity|].
  cbn [session world rows ID Values run]. repeat split.
  - apply lookup_delete_eq.
  - intros id Hne. apply lookup_delete_ne. congruence.
  - intros Hd'. unfold load. cbn [ID].
    rewrite QueryRow_missing; [reflexivity|exact Hd'|].
    cbn [rows]. apply lookup_delete_eq.
Qed.

Lemma Delete_removes_exactly_the_row_witness :
  exists st',
    Delete sampleStore (existingState sampleValues (oneRow "a" 0 0 1000)) = (Done, st') /\
    rows (world st') !! "a" = None.
Proof.
  destruct (Delete_removes_exactly_the_row sampleStore 500
              (existingState sampleValues (oneRow "a" 0 0 1000)))
    as (st' & Hdel & _ & _ & Hgone & _).
  - discriminate.
  - reflexivity.
  - exists st'. split; assumption.
Defined.

(** X3: [Save] under a cookie policy with a negative max-age writes no row and
    sets no encoded cookie: for a session that has an identifier and a
    driver that answers, the session's row is removed, the value map is
    emptied and the one cookie set is the expiring one. *)
Theorem Save_negative_max_age_deletes
    {lib : Collaborators} (m : SQLStore) (now : Z) (key : list Byte.byte)
    (st : State) :
  CookieOptionsMaxAge (ctx st) < 0 ->
  ID (session st) <> "" ->
  driver_answer (world st) = None ->
  exists st',
    Save m now key st = (Done, st') /\
    rows (world st') = delete (ID (session st)) (rows (world st)) /\
    issued (world st') = issued (world st) ++ [DeleteWhereId (ID (session st))] /\
    Values (session st') = ∅ /\
    responseCookies (ctx st') =
      responseCookies (ctx st) ++ [mkCookieCall (Name (session st)) "" (Some (-1))].
Proof.
  intros Hage Hid Hd. rewrite (Save_delete_path m now key st Hage).
  unfold Delete, Remove. cbn [ID set_Values].
  rewrite (length_nonzero _ Hid), (Exec_ok _ _ Hd), clear_values.
  cbn [status_of]. eexists. split; [reflexivity|]. cbn. auto.
Qed.

Lemma Save_negative_max_age_deletes_witness :
  exists st',
    Save sampleStore 500 zeroKey
      (mkState (requestWith (-1) ∅) (sessionOf "a" sampleValues false)
         (worldOf (oneRow "a" 0 0 1000) [])) = (Done, st') /\
    rows (world st') = delete "a" (oneRow "a" 0 0 1000).
Proof.
  destruct (Save_negative_max_age_deletes sampleStore 500 zeroKey
              (mkState (requestWith (-1) ∅) (sessionOf "a" sampleValues false)
                 (worldOf (oneRow "a" 0 0 1000) [])))
    as (st' & Hsave & Hrows & _).
  - reflexivity.
  - discriminate.
  - reflexivity.
  - exists st'. split; assumption.
Defined.

(** ** What a row write leaves of the session *)

Section WriteFrame.

Context {lib : Collaborators}.
Implicit Types (m : SQLStore) (st : State).

Lemma insert_frame m now st r st' :
  insert m now st = (r, st') ->
  ctx st' = ctx st /\
  ID (session st') = ID (session st) /\
  Name (session st') = Name (session st) /\
  IsNew (session st') = IsNew (session st) /\
  (r = Panicked -> st' = st) /\
  (r <> Panicked -> Values (session st') = strip m (Values (session st))).
Proof.
  unfold insert.
  destruct (read_created _ _ _);
    [|intros H; inversion H; subst; repeat split; congruence].
  destruct (read_expires_insert _ _ _ _);
    [|intros H; inversion H; subst; repeat split; congruence].
  cbn [Values set_Values ID].
  destruct (GobSerialize _);
    [|intros H; inversion H; subst; repeat split; congruence].
  destruct (Exec _ _) as [[e|] w']; cbn [status_of];
    intros H; inversion H; subst; repeat split; congruence.
Qed.

Lemma save_frame m now st r st' :
  save m now st = (r, st') ->
  ctx st' = ctx st /\
  ID (session st') = ID (session st) /\
  Name (session st') = Name (session st) /\
  IsNew (session st') = IsNew (session st) /\
  (r = Panicked -> st' = st) /\
  (r <> Panicked -> Values (session st') = strip m (Values (session st))).
Proof.
  unfold save. destruct (IsNew (session st)) eqn:Hnew.
  { intros H. apply insert_frame in H. rewrite Hnew in H. exact H. }
  destruct (read_created _ _ _);
    [|intros H; inversion H; subst; repeat split; congruence].
  destruct (read_expires_save _ _ _ _);
    [|intros H; inversion H; subst; repeat split; congruence].
  cbn [Values set_Values ID].
  destruct (GobSerialize _);
    [|intros H; inversion H; subst; repeat split; cbn; congruence].
  destruct (Exec _ _) as [[e|] w']; cbn [status_of];
    intros H; inversion H; subst; repeat split; cbn; congruence.
Qed.

Lemma Save_after_write m now key st :
  0 <= CookieOptionsMaxAge (ctx st) ->
  Save m now key st =
    match write_step m now key st with
    | (Done, st1) =>
        match EncodeMulti (Name (session st1)) (ID (session st1)) (Codecs m) with
        | None => (Failed ErrEncode, st1)
        | Some encoded =>
            (Done, {| ctx := SetCookie (ctx st1) (Name (session st1)) encoded None;
                      session := session st1; world := world st1 |})
        end
    | (written, st1) => (written, st1)
    end.
Proof.
  intros Hage. unfold Save, write_step.
  destruct (Z.ltb_spec (CookieOptionsMaxAge (ctx st)) 0); [lia|].
  destruct (if (String.length (ID (session st)) =? 0)%nat then _ else _)
    as [written st1].
  destruct written; reflexivity.
Qed.

Lemma write_step_frame m now key st r st1 :
  write_step m now key st = (r, st1) ->
  ctx st1 = ctx st /\
  Name (session st1) = Name (session st) /\
  IsNew (session st1) = IsNew (session st) /\
  (ID (session st) <> "" -> ID (session st1) = ID (session st)) /\
  (r <> Panicked -> Values (session st1) = strip m (Values (session st))).
Proof.
  unfold write_step. destruct (String.length (ID (session st)) =? 0)%nat eqn:E.
  - intros H. apply insert_frame in H.
    destruct H as (Hc & Hi & Hn & Hw & _ & Hv). cbn in *.
    repeat split; auto. intros Hid. apply length_zero_empty in E. contradiction.
  - intros H. apply save_frame in H.
    destruct H as (Hc & Hi & Hn & Hw & _ & Hv). repeat split; auto.
Qed.

End WriteFrame.

(** ** The response cookie and the identity of the session under Save *)

(** X4: Off the delete path, [Save] sets the response cookie exactly when it
    succeeds: on success one cookie is added, named after the session and
    holding the encoding of its identifier, with no max-age argument; on
    every failure, a panic included, the response cookies are as they
    were. *)
Theorem Save_sets_cookie_only_on_success
    {lib : Collaborators} (m : SQLStore) (now : Z) (key : list Byte.byte)
    (st st' : State) (r : status) :
  0 <= CookieOptionsMaxAge (ctx st) ->
  Save m now key st = (r, st') ->
  (r = Done ->
     exists encoded,
       EncodeMulti (Name (session st)) (ID (session st')) (Codecs m) = Some encoded /\
       responseCookies (ctx st') =
         responseCookies (ctx st) ++ [mkCookieCall (Name (session st)) encoded None]) /\
  (r <> Done -> responseCookies (ctx st') = responseCookies (ctx st)).
Proof.
  intros Hage. rewrite (Save_after_write m now key st Hage).
  destruct (write_step m now key st) as [written st1] eqn:Hw.
  destruct (write_step_frame m now key st written st1 Hw) as (Hc & Hn & _).
  destruct written.
  - destruct (EncodeMulti _ _ _) as [encoded|] eqn:He;
      intros H; inversion H; subst; clear H; split; try congruence.
    intros _. exists encoded. cbn. rewrite <- Hn, Hc. auto.
  - intros H; inversion H; subst. split; [discriminate|]. intros _. congruence.
  - intros H; inversion H; subst. split; [discriminate|]. intros _. congruence.
Qed.

Lemma Save_sets_cookie_only_on_success_witness :
  responseCookies
    (ctx (snd (Save sampleStore 100 zeroKey
                 (mkState (requestWith 0 ∅) (sessionOf "a" ∅ false)
                    (worldOf (oneRow "a" 0 5 50) [Some "connection lost"])))))
  = [].
Proof.
  refine (proj2 (Save_sets_cookie_only_on_success sampleStore 100 zeroKey
            (mkState (requestWith 0 ∅) (sessionOf "a" ∅ false)
               (worldOf (oneRow "a" 0 5 50) [Some "connection lost"]))
            _ (Failed (ErrDriver "connection lost")) _ _) _).
  - vm_compute. discriminate.
  - vm_compute. reflexivity.
  - discriminate.
Defined.

(** X5: When encoding the cookie fails the row write is not undone: [Save]
    returns the encoding error after exactly one statement has been
    executed with success, and on the insert path the session's row is in
    the table. *)
Theorem Save_encode_failure_keeps_the_row
    {lib : Collaborators} (m : SQLStore) (now : Z) (key : list Byte.byte)
    (st st' : State) :
  0 <= CookieOptionsMaxAge (ctx st) ->
  Save m now key st = (Failed ErrEncode, st') ->
  driver_answer (world st) = None /\
  (exists q, issued (world st') = issued (world st) ++ [q] /\
             rows (world st') = run q (rows (world st)) /\
             writes_column Cdata q = true) /\
  (ID (session st) = "" \/ IsNew (session st) = true ->
     is_Some (rows (world st') !! ID (session st'))).
Proof.
  intros Hage. rewrite (Save_after_write m now key st Hage).
  destruct (write_step m now key st) as [written st1] eqn:Hw.
  assert (Hnot : forall st0 r0 st2, (insert m now st0 = (r0, st2) \/ save m now st0 = (r0, st2)) ->
                                    r0 <> Failed ErrEncode).
  { intros st0 r0 st2 [H|H]; revert H.
    - unfold insert.
      destruct (read_created _ _ _); [|congruence].
      destruct (read_expires_insert _ _ _ _); [|congruence].
      destruct (GobSerialize _); [|congruence].
      unfold Exec. destruct (driver_answer _); cbn; congruence.
    - unfold save, insert. destruct (IsNew _).
      + destruct (read_created _ _ _); [|congruence].
        destruct (read_expires_insert _ _ _ _); [|congruence].
        destruct (GobSerialize _); [|congruence].
        unfold Exec. destruct (driver_answer _); cbn; congruence.
      + destruct (read_created _ _ _); [|congruence].
        destruct (read_expires_save _ _ _ _); [|congruence].
        destruct (GobSerialize _); [|congruence].
        unfold Exec. destruct (driver_answer _); cbn; congruence. }
  destruct written.
  - destruct (EncodeMulti _ _ _); intros H; inversion H; subst st1; clear H.
    unfold write_step in Hw.
    destruct (String.length (ID (session st)) =? 0)%nat eqn:E.
    + apply insert_Done_inv in Hw.
      destruct Hw as (c & e & d & _ & _ & _ & Hd & ->).
      cbn [with_session session ctx world set_ID set_Values ID issued rows] in *.
      split; [exact Hd|]. split.
      * eexists. repeat split.
      * intros _. rewrite lookup_insert_eq. eauto.
    + destruct (IsNew (session st)) eqn:Hnew.
      * unfold save in Hw. rewrite Hnew in Hw. apply insert_Done_inv in Hw.
        destruct Hw as (c & e & d & _ & _ & _ & Hd & ->).
        cbn [session ctx world set_Values ID issued rows] in *.
        split; [exact Hd|]. split.
        -- eexists. repeat split.
        -- intros _. rewrite lookup_insert_eq. eauto.
      * apply (save_Done_inv m now st st' Hnew) in Hw.
        destruct Hw as (c & e & d & _ & _ & _ & Hd & ->).
        cbn [session ctx world set_Values ID issued rows] in *.
        split; [exact Hd|]. split.
        -- eexists. repeat split.
        -- intros [Hid|Hid]; [|discriminate Hid].
           rewrite Hid in E. discriminate E.
  - intros H. inversion H; subst. exfalso.
    unfold write_step in Hw. destruct (_ =? _)%nat;
      eapply Hnot; eauto.
  - discriminate.
Qed.

Lemma Save_encode_failure_keeps_the_row_witness :
  is_Some
    (rows (world (snd (Save sampleStoreNoCodec 100 zeroKey (freshState 0 ∅))))
       !! ID (session (snd (Save sampleStoreNoCodec 100 zeroKey (freshState 0 ∅))))).
Proof.
  refine (proj2 (proj2 (Save_encode_failure_keeps_the_row sampleStoreNoCodec 100 zeroKey
            (freshState 0 ∅)
            (snd (Save sampleStoreNoCodec 100 zeroKey (freshState 0 ∅))) _ _))
            (or_introl eq_refl)).
  - vm_compute. discriminate.
  - vm_compute. reflexivity.
Defined.

(** X6: [Save] never renames a session and never changes its is-new flag, and
    it never changes an identifier that is not empty: whatever the cookie
    policy and however the call ends.  In particular a session that was
    new before a successful [Save] is still flagged new after it. *)
Theorem Save_keeps_name_flag_and_identifier
    {lib : Collaborators} (m : SQLStore) (now : Z) (key : list Byte.byte)
    (st : State) :
  let st' := snd (Save m now key st) in
  Name (session st') = Name (session st) /\
  IsNew (session st') = IsNew (session st) /\
  (ID (session st) <> "" -> ID (session st') = ID (session st)).
Proof.
  destruct (Z.lt_ge_cases (CookieOptionsMaxAge (ctx st)) 0) as [Hneg|Hage].
  - rewrite (Save_delete_path m now key st Hneg). unfold Delete.
    destruct (Remove _ _ _). cbn. auto.
  - rewrite (Save_after_write m now key st Hage).
    destruct (write_step m now key st) as [written st1] eqn:Hw.
    destruct (write_step_frame m now key st written st1 Hw) as (_ & Hn & Hf & Hi & _).
    destruct written; [destruct (EncodeMulti _ _ _)|..]; cbn; auto.
Qed.

(** X7: The reads of the reserved keys come before anything is changed: when
    [insert] or [save] panics, the session, the context and the world are
    as they were.  When they do not panic, even if they fail, the value
    map has lost the three reserved keys and kept every other binding. *)
Theorem row_write_strips_reserved_keys_or_panics
    {lib : Collaborators} (m : SQLStore) (now : Z) (st : State) :
  let outcome_of (res : status * State) :=
    (fst res = Panicked -> snd res = st) /\
    (fst res <> Panicked ->
       Values (session (snd res)) !! (keyPrefix m +:+ "created") = None /\
       Values (session (snd res)) !! (keyPrefix m +:+ "modified") = None /\
       Values (session (snd res)) !! (keyPrefix m +:+ "expires") = None /\
       forall k, k <> keyPrefix m +:+ "created" ->
                 k <> keyPrefix m +:+ "modified" ->
                 k <> keyPrefix m +:+ "expires" ->
                 Values (session (snd res)) !! k = Values (session st) !! k) in
  outcome_of (insert m now st) /\ outcome_of (save m now st).
Proof.
  intros outcome_of.
  assert (Hstrip : forall v : gmap string any,
            v = strip m (Values (session st)) ->
            v !! (keyPrefix m +:+ "created") = None /\
            v !! (keyPrefix m +:+ "modified") = None /\
            v !! (keyPrefix m +:+ "expires") = None /\
            forall k, k <> keyPrefix m +:+ "created" ->
                      k <> keyPrefix m +:+ "modified" ->
                      k <> keyPrefix m +:+ "expires" ->
                      v !! k = Values (session st) !! k).
  { intros v ->. rewrite !lookup_strip. repeat split.
    - case_decide; [reflexivity|contradiction].
    - repeat case_decide; try reflexivity; contradiction.
    - repeat case_decide; try reflexivity; contradiction.
    - intros k H1 H2 H3. rewrite lookup_strip.
      repeat case_decide; try contradiction. reflexivity. }
  split; unfold outcome_of.
  - destruct (insert m now st) as [r st'] eqn:E.
    destruct (insert_frame m now st r st' E) as (_ & _ & _ & _ & Hp & Hv).
    cbn [fst snd]. split; [exact Hp|]. intros Hr. apply Hstrip, Hv, Hr.
  - destruct (save m now st) as [r st'] eqn:E.
    destruct (save_frame m now st r st' E) as (_ & _ & _ & _ & Hp & Hv).
    cbn [fst snd]. split; [exact Hp|]. intros Hr. apply Hstrip, Hv, Hr.
Qed.

(** X8: An update of a session whose row is not in the table succeeds and
    stores nothing: [Save] returns nil and sets the cookie, the table is
    as it was, and a load by the identifier still finds no row. *)
Theorem Save_update_of_missing_row_stores_nothing
    {lib : Collaborators} (m : SQLStore) (now nowL : Z) (key : list Byte.byte)
    (st st' : State) :
  0 <= CookieOptionsMaxAge (ctx st) ->
  ID (session st) <> "" ->
  IsNew (session st) = false ->
  rows (world st) !! ID (session st) = None ->
  Save m now key st = (Done, st') ->
  rows (world st') = rows (world st) /\
  (exists encoded,
     responseCookies (ctx st') =
       responseCookies (ctx st) ++ [mkCookieCall (Name (session st)) encoded None]) /\
  (driver_answer (world st') = None ->
     fst (fst (load m nowL (session st') (world st'))) = Failed ErrNoRows).
Proof.
  intros Hage Hid Hnew Hrow Hsave.
  destruct (Save_Done_inv m now key st st' Hage Hsave) as (st1 & enc & Hw & _ & ->).
  rewrite (length_nonzero _ Hid) in Hw.
  apply (save_Done_inv m now st st1 Hnew) in Hw.
  destruct Hw as (c & e & d & _ & _ & _ & _ & ->).
  cbn [session ctx world set_Values ID Name rows responseCookies SetCookie].
  assert (Hsame : alter (update_row d c e) (ID (session st)) (rows (world st))
                  = rows (world st)).
  { apply map_eq. intros k. rewrite lookup_alter.
    case_decide; [subst k; rewrite Hrow|]; reflexivity. }
  rewrite Hsame. split; [reflexivity|]. split; [eauto|].
  intros Hd. unfold load. cbn [ID].
  rewrite QueryRow_missing; [reflexivity|exact Hd|exact Hrow].
Qed.

Lemma Save_update_of_missing_row_stores_nothing_witness :
  rows (world (snd (Save sampleStore 100 zeroKey (existingState sampleValues ∅)))) = ∅.
Proof.
  refine (proj1 (Save_update_of_missing_row_stores_nothing sampleStore 100 100 zeroKey
            (existingState sampleValues ∅)
            (snd (Save sampleStore 100 zeroKey (existingState sampleValues ∅)))
            _ _ eq_refl eq_refl _)).
  - vm_compute. discriminate.
  - discriminate.
  - vm_compute. reflexivity.
Defined.

(** ** Reading: load, Reload and SQLStore_New *)


Lemma load_frame
    {lib : Collaborators} (m : SQLStore) (now : Z) (s : Session) (w : World) :
  rows (snd (load m now s w)) = rows w /\
  issued (snd (load m now s w)) = issued w ++ [SelectWhereId (ID s)] /\
  Name (snd (fst (load m now s w))) = Name s.
Proof.
  unfold load, QueryRow.
  destruct (driver_answer w); [cbn; auto|].
  destruct (rows w !! ID s) as [row|]; [|cbn; auto].
  destruct (row_expires row <? now); [cbn; auto|].
  destruct (GobDeserialize (row_data row)); cbn; auto.
Qed.


(** X11: [SQLStore_New] never writes: in every case the table is as it was and
    the session returned bears the name asked for.  Without a cookie of
    that name it does not touch the database at all and returns the new,
    empty session without identifier; with one it issues at most the
    select. *)
Theorem SQLStore_New_only_reads
    {lib : Collaborators} (m : SQLStore) (now : Z) (c : Context) (name : string)
    (w : World) :
  let s' := snd (fst (SQLStore_New m now c name w)) in
  let w' := snd (SQLStore_New m now c name w) in
  rows w' = rows w /\
  Name s' = name /\
  (requestCookies c !! name = None ->
     SQLStore_New m now c name w =
       (Done, {| ID := ""; Name := name; Values := ∅; IsNew := true |}, w)) /\
  (issued w' = issued w \/ exists id, issued w' = issued w ++ [SelectWhereId id]).
Proof.
  unfold SQLStore_New, GetCookie.
  destruct (requestCookies c !! name) as [value|] eqn:Hc; cbn [from_option id].
  2:{ cbn. repeat split; auto. }
  destruct (String.length value =? 0)%nat.
  { cbn. repeat split; try reflexivity; try (intros H; discriminate H).
    left; reflexivity. }
  destruct (DecodeMulti name value (Codecs m)) as [id|].
  2:{ cbn. repeat split; try reflexivity; try (intros H; discriminate H).
      left; reflexivity. }
  pose proof (load_frame m now (set_ID (set_IsNew (NewSession name) true) id) w)
    as (Hrows & Hiss & Hname).
  destruct (load m now _ w) as [[r s1] w1]. cbn [fst snd] in *.
  destruct (absorb r s1) as [r' s2] eqn:Ha.
  assert (Hn2 : Name s2 = Name s1).
  { unfold absorb in Ha. destruct r as [|[]|]; inversion Ha; reflexivity. }
  cbn in Hname. cbn [fst snd]. repeat split; [exact Hrows|congruence|discriminate|].
  right. exists id. exact Hiss.
Qed.

(** ** Request cycles: SQLStore_New followed by Save, and back *)

(** X12: A cookie whose row is missing or expired does not get a new
    identifier.  [SQLStore_New] returns a session that is new and carries
    the decoded identifier, and a following [Save] that succeeds writes the
    row under that same identifier, created at the time of the save and
    expiring max-age later. *)
Theorem expired_cookie_identifier_is_reused
    {lib : Collaborators} (m : SQLStore) (nowN now : Z) (key : list Byte.byte)
    (c : Context) (name id : string) (w : World) :
  GetCookie c name <> "" ->
  DecodeMulti name (GetCookie c name) (Codecs m) = Some id ->
  id <> "" ->
  driver_answer w = None ->
  (rows w !! id = None \/ exists r, rows w !! id = Some r /\ row_expires r < nowN) ->
  0 <= CookieOptionsMaxAge c ->
  exists w1,
    SQLStore_New m nowN c name w =
      (Done, {| ID := id; Name := name; Values := ∅; IsNew := true |}, w1) /\
    forall st',
      Save m now key
        {| ctx := c;
           session := {| ID := id; Name := name; Values := ∅; IsNew := true |};
           world := w1 |} = (Done, st') ->
      ID (session st') = id /\
      exists data,
        GobSerialize (∅ : gmap string any) = Some data /\
        rows (world st') !! id =
          Some (mkRow id data now now (add64 now (MaxAge m c))).
Proof.
  intros Hcookie Hdec Hid Hd Hrow Hage.
  assert (Hnew : exists w1,
             SQLStore_New m nowN c name w =
               (Done, {| ID := id; Name := name; Values := ∅; IsNew := true |}, w1)).
  { unfold SQLStore_New. rewrite (length_nonzero _ Hcookie), Hdec. unfold load.
    cbn [set_ID ID]. destruct Hrow as [Hnone|(r & Hr & Hexp)].
    - rewrite (QueryRow_missing _ _ Hd Hnone). cbn. eauto.
    - rewrite (QueryRow_found _ _ _ Hd Hr).
      destruct (Z.ltb_spec (row_expires r) nowN); [|lia]. cbn. eauto. }
  destruct Hnew as [w1 Hnew]. exists w1. split; [exact Hnew|].
  intros st' Hsave.
  destruct (Save_Done_inv m now key
              {| ctx := c;
                 session := {| ID := id; Name := name; Values := ∅; IsNew := true |};
                 world := w1 |} st' Hage Hsave) as (st1 & enc & Hw & _ & ->).
  cbn [session ID] in Hw. rewrite (length_nonzero _ Hid) in Hw.
  unfold save in Hw. cbn [session IsNew] in Hw.
  apply insert_Done_inv in Hw.
  destruct Hw as (cAt & eAt & data & Hc & He & Hser & _ & ->).
  cbn [session ctx world Values ID set_Values rows] in *.
  assert (Hs : strip m (∅ : gmap string any) = ∅).
  { apply map_eq. intros k. rewrite lookup_strip, lookup_empty.
    repeat case_decide; reflexivity. }
  rewrite Hs in Hser.
  unfold read_created, index in Hc. rewrite lookup_empty in Hc. cbn in Hc.
  unfold read_expires_insert, index in He. rewrite lookup_empty in He. cbn in He.
  injection Hc as <-. injection He as <-.
  split; [reflexivity|]. exists data. split; [exact Hser|].
  apply lookup_insert_eq.
Qed.

Lemma expired_cookie_identifier_is_reused_witness :
  exists w1,
    SQLStore_New sampleStore 600 (requestWith 0 {[ "sess" := "a" ]}) "sess"
      (worldOf (oneRow "a" 0 0 499) [])
    = (Done, {| ID := "a"; Name := "sess"; Values := ∅; IsNew := true |}, w1).
Proof.
  destruct (expired_cookie_identifier_is_reused sampleStore 600 700 zeroKey
              (requestWith 0 {[ "sess" := "a" ]}) "sess" "a"
              (worldOf (oneRow "a" 0 0 499) []))
    as (w1 & Hnew & _).
  - vm_compute. discriminate.
  - reflexivity.
  - discriminate.
  - reflexivity.
  - right. exists (mkRow "a" [Byte.x00] 0 0 499). split; reflexivity.
  - vm_compute. discriminate.
  - exists w1. exact Hnew.
Defined.

(** X13: The whole cycle.  A session without identifier is saved; the request
    that comes back with the cookie that [Save] has set gets, from
    [SQLStore_New], a session that is not new, has the same identifier and
    the same values up to the reserved keys.  This needs the codec chain to
    decode what it encoded, to a cookie value that is not empty, the
    serialiser to decode what it encoded, a driver that answers, and a row
    that has not expired. *)
Theorem Save_then_SQLStore_New_round_trip
    {lib : Collaborators} (m : SQLStore) (now nowN : Z) (key : list Byte.byte)
    (st st' : State) (c' : Context) :
  0 <= CookieOptionsMaxAge (ctx st) ->
  ID (session st) = "" ->
  length key = 32%nat ->
  Save m now key st = (Done, st') ->
  (forall encoded,
     EncodeMulti (Name (session st)) (ID (session st')) (Codecs m) = Some encoded ->
     requestCookies c' !! Name (session st) = Some encoded /\
     encoded <> "" /\
     DecodeMulti (Name (session st)) encoded (Codecs m) = Some (ID (session st'))) ->
  (forall b, GobSerialize (strip m (Values (session st))) = Some b ->
             GobDeserialize b = Some (strip m (Values (session st)))) ->
  driver_answer (world st') = None ->
  (forall r, rows (world st') !! ID (session st') = Some r -> nowN <= row_expires r) ->
  exists s w,
    SQLStore_New m nowN c' (Name (session st)) (world st') = (Done, s, w) /\
    IsNew s = false /\
    ID s = ID (session st') /\
    strip m (Values s) = strip m (Values (session st)).
Proof.
  intros Hage Hid Hkey Hsave Hcodec Hgob Hd Hlive.
  destruct (Save_sets_identifier_shape m now key st st' Hage Hid Hkey Hsave)
    as [Hnew _].
  destruct (Save_Done_inv m now key st st' Hage Hsave) as (st1 & enc & Hw & Henc & Hst').
  rewrite Hid in Hw. cbn [String.length Nat.eqb] in Hw.
  pose proof (insert_frame m now _ Done st1 Hw) as (_ & _ & Hname & _).
  apply insert_Done_inv in Hw.
  destruct Hw as (cAt & eAt & data & _ & _ & Hser & _ & Hst1).
  cbn [with_session session ctx world set_ID Values ID Name] in Hser, Hst1, Hname.
  assert (Hid' : ID (session st') = ID (session st1)) by (rewrite Hst'; reflexivity).
  rewrite Hname, <- Hid' in Henc.
  destruct (Hcodec enc Henc) as (Hreq & Hne & Hdec).
  assert (Hrow : rows (world st') !! ID (session st') =
                 Some (mkRow (newSessionID key) data cAt cAt eAt)).
  { rewrite Hnew, Hst', Hst1. cbn. apply lookup_insert_eq. }
  pose proof (Hlive _ Hrow) as Hr. cbn in Hr.
  unfold SQLStore_New, GetCookie. rewrite Hreq. cbn [from_option id].
  rewrite (length_nonzero _ Hne), Hdec.
  rewrite (load_live_row m nowN
             (set_ID (set_IsNew (NewSession (Name (session st))) true) (ID (session st')))
             (world st') (mkRow (newSessionID key) data cAt cAt eAt)
             (strip m (Values (session st))));
    [|exact Hd|exact Hrow|exact Hr|exact (Hgob data Hser)].
  cbn. eexists _, _. split; [reflexivity|]. cbn. repeat split.
  rewrite strip_reinject, (right_id_L ∅ (∪)). apply strip_strip.
Qed.

Lemma Save_then_SQLStore_New_round_trip_witness :
  exists s w,
    SQLStore_New sampleStore 1005
      (requestWith 0 {[ "sess" := newSessionID zeroKey ]}) "sess"
      (world (snd (Save sampleStore 1000 zeroKey (freshState 0 sampleValues))))
    = (Done, s, w) /\
    IsNew s = false /\
    strip sampleStore (Values s) = strip sampleStore sampleValues.
Proof.
  destruct (Save_then_SQLStore_New_round_trip sampleStore 1000 1005 zeroKey
              (freshState 0 sampleValues)
              (snd (Save sampleStore 1000 zeroKey (freshState 0 sampleValues)))
              (requestWith 0 {[ "sess" := newSessionID zeroKey ]}))
    as (s & w & Hnew & Hflag & _ & Hvalues).
  - vm_compute. discriminate.
  - reflexivity.
  - reflexivity.
  - vm_compute. reflexivity.
  - intros encoded He. vm_compute in He. injection He as <-.
    repeat split; vm_compute; try reflexivity. discriminate.
  - intros b Hb. vm_compute in Hb. injection Hb as <-. vm_compute. reflexivity.
  - reflexivity.
  - intros r Hr. vm_compute in Hr. injection Hr as <-. vm_compute. discriminate.
  - exists s, w. repeat split; assumption.
Defined.

(** * Further properties of the sweeper *)

(** ** One pass *)

Lemma deleteExpired_exact_rows
    {lib : Collaborators} (m : SQLStore) (now : Z) (w : World) :
  gcMaxAgeSQL m = WhereExpiresLt ->
  driver_answer w = None ->
  forall id r,
    rows (snd (deleteExpired m now w)) !! id = Some r <->
    rows w !! id = Some r /\ now <= row_expires r.
Proof.
  intros Hgc Hd id r. unfold deleteExpired, gcStmt.
  rewrite Hgc, (Exec_ok _ _ Hd). cbn [fst snd rows run].
  rewrite map_lookup_filter_Some. cbn [snd gc_matches].
  rewrite Z.ltb_ge. reflexivity.
Qed.

(** X14: For a store as the constructor builds it, a pass that the driver
    answers keeps exactly the rows whose [expires] is not less than the
    current time, each unchanged; a pass that the driver fails returns the
    error and leaves the table as it was. *)
Theorem deleteExpired_removes_exactly_the_expired
    {lib : Collaborators} (m : SQLStore) (now : Z) (w : World) :
  gcMaxAgeSQL m = WhereExpiresLt ->
  (driver_answer w = None ->
     fst (deleteExpired m now w) = None /\
     forall id r,
       rows (snd (deleteExpired m now w)) !! id = Some r <->
       rows w !! id = Some r /\ now <= row_expires r) /\
  (forall msg, driver_answer w = Some msg ->
     fst (deleteExpired m now w) = Some (ErrDriver msg) /\
     rows (snd (deleteExpired m now w)) = rows w).
Proof.
  intros Hgc. split.
  - intros Hd. split; [|exact (deleteExpired_exact_rows m now w Hgc Hd)].
    unfold deleteExpired. rewrite (Exec_ok _ _ Hd). reflexivity.
  - intros msg Hd. unfold deleteExpired. rewrite (Exec_failed _ _ _ Hd).
    split; reflexivity.
Qed.

Lemma deleteExpired_removes_exactly_the_expired_witness :
  rows (snd (deleteExpired sampleStore 500 (worldOf (oneRow "a" 0 0 499) []))) !! "a"
  = None.
Proof.
  destruct (rows (snd (deleteExpired sampleStore 500
                         (worldOf (oneRow "a" 0 0 499) []))) !! "a") as [r|] eqn:E;
    [|reflexivity].
  apply (proj2 (proj1 (deleteExpired_removes_exactly_the_expired sampleStore 500
                         (worldOf (oneRow "a" 0 0 499) []) eq_refl) eq_refl)) in E.
  destruct E as [Hr Hlive]. vm_compute in Hr. injection Hr as <-.
  vm_compute in Hlive. exfalso. apply Hlive. reflexivity.
Defined.

(** X15: The sweeper and [load] agree on what expired means.  After a pass at
    time [now] that the driver has answered, no load at a time up to [now]
    reports a session as expired: the rows it would have reported are
    gone. *)
Theorem no_expired_row_after_a_pass
    {lib : Collaborators} (m : SQLStore) (now t : Z) (s : Session) (w : World) :
  gcMaxAgeSQL m = WhereExpiresLt ->
  driver_answer w = None ->
  t <= now ->
  fst (fst (load m t s (snd (deleteExpired m now w)))) <> Failed ErrSessionExpired.
Proof.
  intros Hgc Hd Ht.
  pose proof (deleteExpired_exact_rows m now w Hgc Hd) as Hrows.
  set (w' := snd (deleteExpired m now w)) in *.
  unfold load, QueryRow.
  destruct (driver_answer w'); [discriminate|].
  destruct (rows w' !! ID s) as [r|] eqn:Hr; [|discriminate].
  apply Hrows in Hr. destruct Hr as [_ Hlive].
  destruct (Z.ltb_spec (row_expires r) t); [lia|].
  destruct (GobDeserialize (row_data r)); discriminate.
Qed.

Lemma no_expired_row_after_a_pass_witness :
  fst (fst (load sampleStore 500 (sessionOf "a" ∅ false)
              (snd (deleteExpired sampleStore 500 (worldOf (oneRow "a" 0 0 499) [])))))
  <> Failed ErrSessionExpired.
Proof.
  apply (no_expired_row_after_a_pass sampleStore 500 500 (sessionOf "a" ∅ false)
           (worldOf (oneRow "a" 0 0 499) [])).
  - reflexivity.
  - reflexivity.
  - vm_compute. discriminate.
Defined.

(** X16: Two passes that the driver answers leave the table that one pass at
    the later of the two times leaves. *)
Theorem two_passes_are_one_at_the_later_time
    {lib : Collaborators} (m : SQLStore) (t1 t2 : Z) (w : World) :
  gcMaxAgeSQL m = WhereExpiresLt ->
  driver_answer w = None ->
  driver_answer (snd (deleteExpired m t1 w)) = None ->
  rows (snd (deleteExpired m t2 (snd (deleteExpired m t1 w)))) =
  rows (snd (deleteExpired m (Z.max t1 t2) w)).
Proof.
  intros Hgc Hd1 Hd2. apply map_eq. intros id. apply option_eq. intros r.
  rewrite (deleteExpired_exact_rows m t2 _ Hgc Hd2).
  rewrite (deleteExpired_exact_rows m t1 _ Hgc Hd1).
  rewrite (deleteExpired_exact_rows m (Z.max t1 t2) _ Hgc Hd1).
  split; intros H; repeat split; try tauto; lia.
Qed.

Lemma two_passes_are_one_at_the_later_time_witness :
  rows (snd (deleteExpired sampleStore 400
               (snd (deleteExpired sampleStore 500 (worldOf (oneRow "a" 0 0 450) [])))))
  = rows (snd (deleteExpired sampleStore (Z.max 500 400)
                 (worldOf (oneRow "a" 0 0 450) []))).
Proof.
  apply (two_passes_are_one_at_the_later_time sampleStore 500 400
           (worldOf (oneRow "a" 0 0 450) [])); reflexivity.
Defined.

(** ** The loop *)

(** X17: A pass that fails does not end the loop.  The error is written to the
    log, the table is as it was, and the task is back at its [select],
    where it can take the next tick. *)
Theorem failed_pass_is_logged_and_loop_goes_on
    {lib : Collaborators} (m : SQLStore) (now : Z) (s : Sweeper) (msg : string) :
  task s = InDeleteExpired ->
  driver_answer (sweeper_world s) = Some msg ->
  exists s',
    fire m (Pass now) s = Some s' /\
    task s' = AtSelect /\
    caller s' = caller s /\
    rows (sweeper_world s') = rows (sweeper_world s) /\
    logged (sweeper_world s') =
      logged (sweeper_world s) ++ [LogSweepFailed (ErrDriver msg)] /\
    is_Some (fire m Tick s').
Proof.
  intros Ht Hd. unfold fire. rewrite Ht.
  eexists. split; [reflexivity|].
  unfold cleanup_pass, deleteExpired. rewrite (Exec_failed _ _ _ Hd).
  cbn. repeat split. eauto.
Qed.

Lemma failed_pass_is_logged_and_loop_goes_on_witness :
  exists s',
    fire sampleStore (Pass 500)
      {| interval := 1; task := InDeleteExpired; caller := Holding;
         sweeper_world := worldOf (oneRow "a" 0 0 499) [Some "connection lost"];
         passes := 0 |} = Some s' /\
    task s' = AtSelect.
Proof.
  destruct (failed_pass_is_logged_and_loop_goes_on sampleStore 500
              {| interval := 1; task := InDeleteExpired; caller := Holding;
                 sweeper_world := worldOf (oneRow "a" 0 0 499) [Some "connection lost"];
                 passes := 0 |} "connection lost" eq_refl eq_refl)
    as (s' & Hfire & Htask & _).
  exists s'. split; assumption.
Defined.

Lemma pass_times_app (es1 es2 : list event) :
  pass_times (es1 ++ es2) = pass_times es1 ++ pass_times es2.
Proof. apply omap_app. Qed.

Lemma fire_effects {lib : Collaborators} (m : SQLStore) (e : event) (s s' : Sweeper) :
  fire m e s = Some s' ->
  interval s' = interval s /\
  rows (sweeper_world s') ⊆ rows (sweeper_world s) /\
  passes s' = (passes s + length (pass_times [e]))%nat /\
  issued (sweeper_world s') =
    issued (sweeper_world s) ++ map (DeleteWhere (gcStmt m)) (pass_times [e]).
Proof.
  unfold fire.
  destruct e, (task s), (caller s); intros H; try discriminate H;
    injection H as <-; cbn [interval sweeper_world passes pass_times omap length map];
    rewrite ?app_nil_r, ?Nat.add_0_r, ?Nat.add_1_r; repeat split; try reflexivity.
  all: unfold cleanup_pass, deleteExpired, Exec;
    destruct (driver_answer (sweeper_world s)); cbn; try reflexivity;
    apply map_filter_subseteq.
Qed.

(** X18: In every run started by [Cleanup] the sweeper does nothing to the
    database but run its passes: the statements issued are the delete of
    each pass, in order, completed with the time of that pass; the number
    of passes counted is the number of pass events; and the table only
    shrinks, so no row is added or changed. *)
Theorem sweeper_only_deletes
    {lib : Collaborators} (m : SQLStore) (interval0 : Z) (w : World)
    (es : list event) (s : Sweeper) :
  fire_all m es (Cleanup m interval0 w) = Some s ->
  rows (sweeper_world s) ⊆ rows w /\
  passes s = length (pass_times es) /\
  issued (sweeper_world s) = issued w ++ map (DeleteWhere (gcStmt m)) (pass_times es).
Proof.
  assert (Hgen : forall es s0 s1, fire_all m es s0 = Some s1 ->
            rows (sweeper_world s1) ⊆ rows (sweeper_world s0) /\
            passes s1 = (passes s0 + length (pass_times es))%nat /\
            issued (sweeper_world s1) =
              issued (sweeper_world s0) ++ map (DeleteWhere (gcStmt m)) (pass_times es)).
  { clear. intros es. induction es as [|e es IH]; intros s0 s1; cbn [fire_all].
    - intros H. injection H as <-. cbn. rewrite app_nil_r, Nat.add_0_r. auto.
    - destruct (fire m e s0) as [s'|] eqn:E; [|discriminate]. intros H.
      destruct (fire_effects m e s0 s' E) as (_ & Hr & Hp & Hi).
      destruct (IH s' s1 H) as (Hr' & Hp' & Hi').
      change (e :: es) with ([e] ++ es). rewrite pass_times_app, length_app, map_app.
      split; [etrans; eassumption|]. split; [lia|].
      rewrite Hi', Hi, <- app_assoc. reflexivity. }
  intros H. exact (Hgen es _ s H).
Qed.

Lemma sweeper_only_deletes_witness :
  exists s,
    fire_all sampleStore [Tick; Pass 500; Tick; Pass 800]
      (Cleanup sampleStore 0 (worldOf (oneRow "a" 0 0 600) [])) = Some s /\
    issued (sweeper_world s) =
      [DeleteWhere WhereExpiresLt 500; DeleteWhere WhereExpiresLt 800].
Proof.
  eexists. split; [vm_compute; reflexivity|].
  refine (proj2 (proj2 (sweeper_only_deletes sampleStore 0
            (worldOf (oneRow "a" 0 0 600) []) [Tick; Pass 500; Tick; Pass 800] _ _))).
  vm_compute. reflexivity.
Defined.



(** X20: The interval [Cleanup] gives the ticker is positive, whatever interval
    it is asked for: a positive one is kept and any other is replaced by
    the default of five minutes.  No event of the run changes it. *)
Theorem Cleanup_interval_is_positive
    {lib : Collaborators} (m : SQLStore) (interval0 : Z) (w : World)
    (es : list event) (s : Sweeper) :
  fire_all m es (Cleanup m interval0 w) = Some s ->
  0 < interval s /\
  (0 < interval0 -> interval s = interval0) /\
  (interval0 <= 0 -> interval s = 300000000000).
Proof.
  assert (Hgen : forall es s0 s1, fire_all m es s0 = Some s1 -> interval s1 = interval s0).
  { clear. intros es. induction es as [|e es IH]; intros s0 s1; simpl.
    - intros H. injection H as <-. reflexivity.
    - destruct (fire m e s0) as [s'|] eqn:E; [|discriminate]. intros H.
      rewrite (IH s' s1 H). exact (proj1 (fire_effects m e s0 s' E)). }
  intros H. rewrite (Hgen es _ s H). unfold Cleanup. cbn [interval].
  destruct (Z.leb_spec interval0 0); unfold DefaultInterval; repeat split; lia.
Qed.

Lemma Cleanup_interval_is_positive_witness :
  0 < interval (Cleanup sampleStore (-5) emptyWorld).
Proof.
  exact (proj1 (Cleanup_interval_is_positive sampleStore (-5) emptyWorld []
                  (Cleanup sampleStore (-5) emptyWorld) eq_refl)).
Defined.

(** * Further properties of the constructor and of the max-age *)

(** ** New *)

(** X21: The constructor succeeds when the driver answers its five calls: the
    DDL and the four preparations.  It then has issued the DDL and nothing
    else, has left the table alone, and the store it returns has the two
    garbage-collection fragments, a key prefix that is not empty (["_"]
    when none is configured), the configured max-age, and the engine's
    empty-data age in place of one that is not positive. *)
Theorem New_succeeds_with_defaults
    {lib : Collaborators} (cfg : Options.t) (w : World) :
  answers_next 5 w ->
  exists m w',
    New cfg w = (inr m, w') /\
    rows w' = rows w /\
    (exists q, issued w' = issued w ++ [CreateTable q]) /\
    driver w' = drop 5 (driver w) /\
    gcMaxAgeSQL m = WhereExpiresLt /\
    gcEmptyDataSQL m = WhereCharLengthAndCreatedLt EmptyGobSize /\
    keyPrefix m <> "" /\
    (Options.KeyPrefix cfg = "" -> keyPrefix m = "_") /\
    (Options.KeyPrefix cfg <> "" -> keyPrefix m = Options.KeyPrefix cfg) /\
    maxAge m = Options.MaxAge cfg /\
    (0 < Options.EmptyDataAge cfg -> emptyDataAge m = Options.EmptyDataAge cfg) /\
    (Options.EmptyDataAge cfg <= 0 -> emptyDataAge m = EmptyDataAge) /\
    (Options.Table cfg = "" -> table m = "`session`").
Proof.
  unfold answers_next. intros Hans. destruct w as [rs iss lg dr]. cbn [driver] in Hans.
  assert (Hprefix : forall p : string,
            (if (String.length p =? 0)%nat then "_" else p) <> "" /\
            (p = "" -> (if (String.length p =? 0)%nat then "_" else p) = "_") /\
            (p <> "" -> (if (String.length p =? 0)%nat then "_" else p) = p)).
  { intros p. destruct p; cbn; repeat split; congruence. }
  assert (Hage : forall a : Z,
            (0 < a -> (if a <=? 0 then EmptyDataAge else a) = a) /\
            (a <= 0 -> (if a <=? 0 then EmptyDataAge else a) = EmptyDataAge)).
  { intros a. destruct (Z.leb_spec a 0); split; intros; try reflexivity; lia. }
  assert (Htable : Options.Table cfg = "" ->
            "`" +:+ Trim (if (String.length (Options.Table cfg) =? 0)%nat
                          then "session" else Options.Table cfg) "`" +:+ "`"
            = "`session`").
  { intros ->. reflexivity. }
  destruct (Hprefix (Options.KeyPrefix cfg)) as (Hp1 & Hp2 & Hp3).
  destruct (Hage (Options.EmptyDataAge cfg)) as (Ha1 & Ha2).
  unfold New, Exec, Prepare, driver_answer.
  destruct dr as [|a0 [|a1 [|a2 [|a3 [|a4 rest]]]]]; cbn [take] in Hans;
    repeat match goal with
           | H : Forall _ (_ :: _) |- _ => apply Forall_cons_1 in H; destruct H as [-> H]
           end;
    cbn [driver tail rows issued logged];
    eexists _, _; (split; [reflexivity|]);
    cbn [rows issued driver drop gcMaxAgeSQL gcEmptyDataSQL keyPrefix maxAge
         emptyDataAge table];
    repeat split; eauto.
Qed.

Lemma New_succeeds_with_defaults_witness :
  exists m w',
    New (lib := sampleLib) (Options.mk "" "" [] 10 0 0 0 0 "CREATE TABLE ")
      (worldOf ∅ [None; None]) = (inr m, w') /\
    keyPrefix m = "_" /\ emptyDataAge m = 86400.
Proof.
  destruct (New_succeeds_with_defaults (lib := sampleLib)
              (Options.mk "" "" [] 10 0 0 0 0 "CREATE TABLE ")
              (worldOf ∅ [None; None]))
    as (m & w' & Hnew & _ & _ & _ & _ & _ & _ & Hp & _ & _ & _ & Ha & _).
  - repeat constructor.
  - exists m, w'. split; [exact Hnew|]. split; [exact (Hp eq_refl)|].
    apply Ha. vm_compute. discriminate.
Defined.

(** X22: The constructor stops at the first call the driver fails.  When that
    is the DDL, the error it returns wraps the driver's error together with
    the text of the DDL, no preparation is attempted, and the table is as
    it was; when it is the first preparation, the DDL has been executed
    and the error carries the text of the insert-or-replace statement. *)
Theorem New_stops_at_the_first_failure
    {lib : Collaborators} (cfg : Options.t) (w : World) (msg : string) :
  (driver_answer w = Some msg ->
     exists q,
       New cfg w =
         (inl (ErrWrap (ErrDriver msg) q),
          {| rows := rows w; issued := issued w ++ [CreateTable q];
             logged := logged w; driver := tail (driver w) |})) /\
  (forall rest, driver w = None :: Some msg :: rest ->
     exists q table,
       New cfg w =
         (inl (ErrWrap (ErrDriver msg)
                 ("REPLACE INTO " +:+ table +:+
                  "(id, data, created, modified, expires) VALUES (?, ?, ?, ?, ?)")),
          {| rows := rows w; issued := issued w ++ [CreateTable q];
             logged := logged w; driver := rest |})).
Proof.
  split.
  - intros Hd. unfold New. rewrite (Exec_failed _ _ _ Hd). eauto.
  - intros rest Hdr. unfold New, Exec, Prepare, driver_answer.
    rewrite Hdr. cbn [driver tail rows issued logged]. eauto.
Qed.

(** ** The quoted table name *)

Lemma list_ascii_of_string_app (a b : string) :
  list_ascii_of_string (a +:+ b) = list_ascii_of_string a ++ list_ascii_of_string b.
Proof. induction a as [|c a IH]; simpl; [reflexivity|]. rewrite IH. reflexivity. Qed.

Lemma trim_right_snoc (l cut : list ascii) (c : ascii) :
  in_cutset cut c = true -> trim_right (l ++ [c]) cut = trim_right l cut.
Proof.
  intros Hc. induction l as [|a l IH]; simpl.
  - rewrite Hc. reflexivity.
  - rewrite IH. reflexivity.
Qed.

Lemma trim_left_right_cons (l cut : list ascii) (c : ascii) :
  in_cutset cut c = true ->
  trim_left (trim_right (c :: l) cut) cut = trim_left (trim_right l cut) cut.
Proof.
  intros Hc. simpl. destruct (trim_right l cut) as [|a t].
  - rewrite Hc. reflexivity.
  - simpl. rewrite Hc. reflexivity.
Qed.

Lemma Trim_enclosed (t : string) : Trim ("`" +:+ t +:+ "`") "`" = Trim t "`".
Proof.
  unfold Trim. f_equal.
  rewrite !list_ascii_of_string_app.
  change (list_ascii_of_string "`") with ["`"%char].
  change (["`"%char] ++ list_ascii_of_string t ++ ["`"%char])
    with ("`"%char :: (list_ascii_of_string t ++ ["`"%char])).
  rewrite trim_left_right_cons by reflexivity.
  rewrite trim_right_snoc by reflexivity. reflexivity.
Qed.

(** X23: The constructor makes sure the table name is enclosed in backticks
    once: a name that is not empty gives the same result, store and world,
    whether it is configured bare or already enclosed. *)
Theorem New_encloses_table_name_once
    {lib : Collaborators} (cfg : Options.t) (t : string) (w : World) :
  t <> "" ->
  New (with_Table cfg ("`" +:+ t +:+ "`")) w = New (with_Table cfg t) w.
Proof.
  intros Ht. unfold New. cbn [with_Table Options.Table Options.ddl Options.KeyPairs
    Options.MaxLength Options.MaxAge Options.EmptyDataAge Options.CheckInterval
    Options.KeyPrefix].
  rewrite (length_nonzero t Ht).
  change (String.length ("`" +:+ t +:+ "`") =? 0)%nat with false.
  cbn match. rewrite Trim_enclosed. reflexivity.
Qed.

Lemma New_encloses_table_name_once_witness :
  New (lib := sampleLib)
    (with_Table (Options.mk "" "" [] 10 0 0 0 0 "CREATE TABLE ") "`visits`") emptyWorld
  = New (lib := sampleLib)
      (with_Table (Options.mk "" "" [] 10 0 0 0 0 "CREATE TABLE ") "visits") emptyWorld.
Proof.
  apply (New_encloses_table_name_once (lib := sampleLib)
           (Options.mk "" "" [] 10 0 0 0 0 "CREATE TABLE ") "visits" emptyWorld).
  discriminate.
Defined.

(** ** The lifetime a save gives *)

Lemma MaxAge_positive {lib : Collaborators} (m : SQLStore) (c : Context) :
  0 <= CookieOptionsMaxAge c -> 0 < DefaultMaxAge -> 0 < MaxAge m c.
Proof.
  intros Hc Hd. unfold MaxAge.
  destruct (Z.eqb_spec (CookieOptionsMaxAge c) 0); [|lia].
  destruct (Z.ltb_spec 0 (maxAge m)); lia.
Qed.

(** X24: A session saved on the insert path without an expiry of its own gets
    the effective max-age as its lifetime: the cookie policy's max-age
    when that is not zero, else the store's when that is positive, else
    the engine's default.  With a positive default and a sum within
    [int64], the row expires exactly that long after the save, which is
    later than the save, so a load up to that time does not find it
    expired. *)
Theorem Save_gives_the_effective_max_age
    {lib : Collaborators} (m : SQLStore) (now t : Z) (key : list Byte.byte)
    (st st' : State) :
  0 <= CookieOptionsMaxAge (ctx st) ->
  0 < DefaultMaxAge ->
  ID (session st) = "" \/ IsNew (session st) = true ->
  Values (session st) !! (keyPrefix m +:+ "expires") = None ->
  int64_range (now + MaxAge m (ctx st)) ->
  Save m now key st = (Done, st') ->
  let age :=
    if CookieOptionsMaxAge (ctx st) =? 0
    then (if 0 <? maxAge m then maxAge m else DefaultMaxAge)
    else CookieOptionsMaxAge (ctx st) in
  exists r,
    rows (world st') !! ID (session st') = Some r /\
    row_expires r = now + age /\
    now < row_expires r /\
    (t <= now + age ->
     fst (fst (load m t (session st') (world st'))) <> Failed ErrSessionExpired).
Proof.
  intros Hage Hdef Hpath Hnone Hrange Hsave age.
  pose proof (MaxAge_positive m (ctx st) Hage Hdef) as Hpos.
  change age with (MaxAge m (ctx st)).
  destruct (Save_Done_inv m now key st st' Hage Hsave) as (st1 & enc & Hw & _ & ->).
  assert (Hins : exists st0,
             insert m now st0 = (Done, st1) /\ ctx st0 = ctx st /\
             Values (session st0) = Values (session st)).
  { destruct (String.length (ID (session st)) =? 0)%nat eqn:E.
    - eexists. split; [exact Hw|]. split; reflexivity.
    - destruct Hpath as [Hid|Hnew]; [rewrite Hid in E; discriminate E|].
      unfold save in Hw. rewrite Hnew in Hw. eauto. }
  destruct Hins as (st0 & Hins & Hctx & Hvals).
  apply insert_Done_inv in Hins.
  destruct Hins as (cAt & eAt & data & _ & He & _ & _ & ->).
  unfold read_expires_insert, index in He. rewrite Hvals, Hnone, Hctx in He.
  cbn in He. injection He as <-.
  unfold add64. rewrite (wrap64_in_range _ Hrange).
  cbn [session world rows ID set_Values].
  eexists. split; [apply lookup_insert_eq|]. cbn [row_expires].
  split; [reflexivity|]. split; [lia|].
  intros Ht. unfold load, QueryRow. cbn [ID rows].
  destruct (driver_answer _); [discriminate|].
  rewrite lookup_insert_eq. cbn [row_expires row_data].
  destruct (Z.ltb_spec (now + MaxAge m (ctx st)) t); [lia|].
  destruct (GobDeserialize data); discriminate.
Qed.

Lemma Save_gives_the_effective_max_age_witness :
  exists r,
    rows (world (snd (Save sampleStore 1000 zeroKey (freshState 0 ∅))))
      !! ID (session (snd (Save sampleStore 1000 zeroKey (freshState 0 ∅)))) = Some r /\
    row_expires r = 1000 + 10.
Proof.
  destruct (Save_gives_the_effective_max_age sampleStore 1000 1005 zeroKey
              (freshState 0 ∅)
              (snd (Save sampleStore 1000 zeroKey (freshState 0 ∅))))
    as (r & Hrow & Hexp & _).
  - vm_compute. discriminate.
  - reflexivity.
  - left. reflexivity.
  - reflexivity.
  - vm_compute. split; [discriminate|reflexivity].
  - vm_compute. reflexivity.
  - exists r. split; assumption.
Defined.

(** * Further properties of the rows a save writes *)

(** X25: [Save] touches no row but the session's own.  Whatever path it takes
    and however it ends, every row stored under another identifier than
    the one the session has after the call is as it was. *)
Theorem Save_touches_only_the_session_row
    {lib : Collaborators} (m : SQLStore) (now : Z) (key : list Byte.byte)
    (st : State) (id : string) :
  id <> ID (session (snd (Save m now key st))) ->
  rows (world (snd (Save m now key st))) !! id = rows (world st) !! id.
Proof.
  assert (Hexec : forall q w (id0 : string),
            (forall t : gmap string sessionRow, run q t !! id0 = t !! id0) ->
            rows (snd (Exec q w)) !! id0 = rows w !! id0).
  { intros q w id0 Hq. unfold Exec. destruct (driver_answer w); cbn; auto. }
  assert (Hinsert : forall st0 (id0 : string),
            id0 <> ID (session st0) ->
            rows (world (snd (insert m now st0))) !! id0 = rows (world st0) !! id0).
  { intros st0 id0 Hne. unfold insert.
    destruct (read_created _ _ _); [|reflexivity].
    destruct (read_expires_insert _ _ _ _); [|reflexivity].
    cbn [Values set_Values ID].
    destruct (GobSerialize _); [|reflexivity].
    match goal with |- context [Exec ?q ?w] =>
      pose proof (Hexec q w id0) as Hq; destruct (Exec q w) end.
    cbn in *. apply Hq. intros t. apply lookup_insert_ne. congruence. }
  assert (Hsave : forall (id0 : string),
            id0 <> ID (session st) ->
            rows (world (snd (save m now st))) !! id0 = rows (world st) !! id0).
  { intros id0 Hne. unfold save. destruct (IsNew (session st)); [apply Hinsert, Hne|].
    destruct (read_created _ _ _); [|reflexivity].
    destruct (read_expires_save _ _ _ _); [|reflexivity].
    cbn [Values set_Values ID].
    destruct (GobSerialize _); [|reflexivity].
    match goal with |- context [Exec ?q ?w] =>
      pose proof (Hexec q w id0) as Hq; destruct (Exec q w) end.
    cbn in *. apply Hq. intros t. cbn. rewrite lookup_alter.
    case_decide; [congruence|reflexivity]. }
  destruct (Z.lt_ge_cases (CookieOptionsMaxAge (ctx st)) 0) as [Hneg|Hage].
  - rewrite (Save_delete_path m now key st Hneg). unfold Delete, Remove.
    cbn [ID set_Values].
    destruct (String.length (ID (session st)) =? 0)%nat; [reflexivity|].
    match goal with |- context [Exec ?q ?w] =>
      pose proof (Hexec q w id) as Hq; destruct (Exec q w) end.
    cbn in *. intros Hne. apply Hq. intros t. apply lookup_delete_ne. congruence.
  - rewrite (Save_after_write m now key st Hage). unfold write_step.
    destruct (String.length (ID (session st)) =? 0)%nat eqn:E.
    + pose proof (Hinsert (with_session st (set_ID (session st) (newSessionID key))) id)
        as Hi.
      destruct (insert m now _) as [r st1] eqn:Hins.
      apply insert_frame in Hins. destruct Hins as (_ & Hid & _).
      cbn [snd session ID with_session set_ID world] in Hi, Hid.
      destruct r; [destruct (EncodeMulti _ _ _)|..]; cbn [snd session world];
        intros Hne; apply Hi; congruence.
    + pose proof (Hsave id) as Hs.
      destruct (save m now st) as [r st1] eqn:Hsv.
      apply save_frame in Hsv. destruct Hsv as (_ & Hid & _).
      cbn [snd] in Hs.
      destruct r; [destruct (EncodeMulti _ _ _)|..]; cbn [snd session world];
        intros Hne; apply Hs; congruence.
Qed.

Lemma Save_touches_only_the_session_row_witness :
  rows (world (snd (Save sampleStore 100 zeroKey
                      (existingState ∅ (oneRow "b" 0 5 50))))) !! "b"
  = Some (mkRow "b" [Byte.x00] 0 5 50).
Proof.
  refine (Save_touches_only_the_session_row sampleStore 100 zeroKey
            (existingState ∅ (oneRow "b" 0 5 50)) "b" _).
  vm_compute. discriminate.
Defined.

(** X26: The creation time survives an update only if the value map carries
    it.  An update of a session whose row is in the table stores the
    [created] that the map carries, so a save after a load leaves it as it
    is; when the map carries none, the update sets [created] to the time of
    the save. *)
Theorem save_update_created
    {lib : Collaborators} (m : SQLStore) (now : Z) (st st' : State)
    (r : sessionRow) :
  IsNew (session st) = false ->
  rows (world st) !! ID (session st) = Some r ->
  save m now st = (Done, st') ->
  let kc := keyPrefix m +:+ "created" in
  exists r',
    rows (world st') !! ID (session st) = Some r' /\
    (forall c, Values (session st) !! kc = Some (AInt64 c) -> row_created r' = c) /\
    (Values (session st) !! kc = Some (AInt64 (row_created r)) ->
       row_created r' = row_created r) /\
    (Values (session st) !! kc = None -> row_created r' = now) /\
    row_id r' = row_id r.
Proof.
  intros Hnew Hr Hsave kc.
  apply (save_Done_inv m now st st' Hnew) in Hsave.
  destruct Hsave as (createdAt & expiredAt & encoded & Hc & _ & _ & _ & ->).
  cbn [session world rows].
  exists (update_row encoded createdAt expiredAt r).
  assert (Hcarried : forall c, Values (session st) !! kc = Some (AInt64 c) ->
                               createdAt = c).
  { intros c Hv. unfold read_created, index in Hc. fold kc in Hc.
    rewrite Hv in Hc. cbn in Hc. congruence. }
  repeat split.
  - rewrite lookup_alter. case_decide; [|congruence]. rewrite Hr. reflexivity.
  - exact Hcarried.
  - apply Hcarried.
  - intros Hv. unfold read_created, index in Hc. fold kc in Hc.
    rewrite Hv in Hc. cbn in Hc. cbn. congruence.
Qed.

Lemma save_update_created_witness :
  exists r',
    rows (world (snd (save sampleStore 100
                        bareUpdateState))) !! "a" = Some r' /\
    row_created r' = 100.
Proof.
  destruct (save_update_created sampleStore 100
              bareUpdateState
              (snd (save sampleStore 100 bareUpdateState))
              (mkRow "a" [Byte.x00] 7 7 50)
              eq_refl eq_refl ltac:(vm_compute; reflexivity))
    as (r' & Hrow & _ & _ & Hnow & _).
  exists r'. split; [exact Hrow|]. exact (Hnow eq_refl).
Defined.

(** * Further properties of the identifier *)

Lemma in_all_bytes (x : Z) : is_byte x -> In x all_bytes.
Proof.
  intros Hx. unfold all_bytes, is_byte in *.
  replace x with (Z.of_nat (Z.to_nat x)) by lia.
  apply in_map, in_seq. lia.
Qed.

Lemma all_groups_decode_true : all_groups_decode = true.
Proof. vm_compute. reflexivity. Qed.

Lemma groups_decode_bytes (a b : Z) : is_byte a -> is_byte b -> groups_decode a b = true.
Proof.
  intros Ha Hb. pose proof all_groups_decode_true as H.
  unfold all_groups_decode in H. rewrite forallb_forall in H.
  specialize (H a (in_all_bytes a Ha)). rewrite forallb_forall in H.
  exact (H b (in_all_bytes b Hb)).
Qed.

Lemma group_facts (a b : Z) :
  is_byte a -> is_byte b ->
  d0 (g0 a) (g1 a b) = a /\
  g1 a b mod 4 = b / 64 /\
  g3 a b / 16 = a mod 2 /\
  g3 a b mod 16 = b / 16 /\
  g4 a b / 2 = a mod 16 /\
  g4 a b mod 2 = b / 128 /\
  g6 a b / 8 = a mod 4 /\
  g6 a b mod 8 = b / 32 /\
  (a / 64) * 64 + g2 a * 2 + a mod 2 = a /\
  (a / 128) * 128 + g5 a * 4 + a mod 4 = a /\
  g7 a = a mod 32 /\
  (0 <= g0 a < 32) /\ (0 <= g1 a b < 32) /\ (0 <= g2 a < 32) /\
  (0 <= g3 a b < 32) /\ (0 <= g4 a b < 32) /\ (0 <= g5 a < 32) /\
  (0 <= g6 a b < 32) /\ (0 <= g7 a < 32).
Proof.
  intros Ha Hb. pose proof (groups_decode_bytes a b Ha Hb) as H.
  unfold groups_decode, in_group_range in H.
  repeat match goal with
         | H : _ && _ = true |- _ => apply andb_prop in H; destruct H
         end.
  repeat match goal with
         | H : (_ =? _) = true |- _ => apply Z.eqb_eq in H
         | H : (_ <=? _) = true |- _ => apply Z.leb_le in H
         | H : (_ <? _) = true |- _ => apply Z.ltb_lt in H
         end.
  repeat split; assumption.
Qed.

Lemma zero_is_byte : is_byte 0.
Proof. unfold is_byte. lia. Qed.

Lemma decode_first (x y : Z) : is_byte x -> is_byte y -> d0 (g0 x) (g1 x y) = x.
Proof. intros Hx Hy. exact (proj1 (group_facts x y Hx Hy)). Qed.

Lemma decode_second (x y z : Z) :
  is_byte x -> is_byte y -> is_byte z -> d1 (g1 x y) (g2 y) (g3 y z) = y.
Proof.
  intros Hx Hy Hz. unfold d1.
  destruct (group_facts x y Hx Hy) as (_ & -> & _).
  destruct (group_facts y z Hy Hz) as (_ & _ & -> & _ & _ & _ & _ & _ & H & _).
  exact H.
Qed.

Lemma decode_third (y z u : Z) :
  is_byte y -> is_byte z -> is_byte u -> d2 (g3 y z) (g4 z u) = z.
Proof.
  intros Hy Hz Hu. unfold d2.
  destruct (group_facts y z Hy Hz) as (_ & _ & _ & -> & _).
  destruct (group_facts z u Hz Hu) as (_ & _ & _ & _ & -> & _).
  pose proof (Z.div_mod z 16 ltac:(lia)). lia.
Qed.

Lemma decode_fourth (z u v : Z) :
  is_byte z -> is_byte u -> is_byte v -> d3 (g4 z u) (g5 u) (g6 u v) = u.
Proof.
  intros Hz Hu Hv. unfold d3.
  destruct (group_facts z u Hz Hu) as (_ & _ & _ & _ & _ & -> & _).
  destruct (group_facts u v Hu Hv)
    as (_ & _ & _ & _ & _ & _ & -> & _ & _ & H & _).
  exact H.
Qed.

Lemma decode_fifth (u v : Z) : is_byte u -> is_byte v -> d4 (g6 u v) (g7 v) = v.
Proof.
  intros Hu Hv. unfold d4.
  destruct (group_facts u v Hu Hv) as (_ & _ & _ & _ & _ & _ & _ & -> & _).
  destruct (group_facts v v Hv Hv)
    as (_ & _ & _ & _ & _ & _ & _ & _ & _ & _ & -> & _).
  pose proof (Z.div_mod v 32 ltac:(lia)). lia.
Qed.

Lemma group_ranges (a b : Z) :
  is_byte a -> is_byte b ->
  (0 <= g0 a < 32) /\ (0 <= g1 a b < 32) /\ (0 <= g2 a < 32) /\
  (0 <= g3 a b < 32) /\ (0 <= g4 a b < 32) /\ (0 <= g5 a < 32) /\
  (0 <= g6 a b < 32) /\ (0 <= g7 a < 32).
Proof.
  intros Ha Hb.
  destruct (group_facts a b Ha Hb) as (_ & _ & _ & _ & _ & _ & _ & _ & _ & _ & _ & H).
  exact H.
Qed.

Lemma encChar_inj (i j : Z) :
  0 <= i < 32 -> 0 <= j < 32 -> encChar i = encChar j -> i = j.
Proof.
  intros Hi Hj Heq. unfold encChar in Heq.
  assert (Hnd : NoDup encodeStd).
  { apply (bool_decide_unpack _). vm_compute. reflexivity. }
  assert (Hlen : length encodeStd = 32%nat) by reflexivity.
  destruct (nth_lookup_or_length encodeStd (Z.to_nat i) Ascii.zero) as [Hli|Hli]; [|lia].
  destruct (nth_lookup_or_length encodeStd (Z.to_nat j) Ascii.zero) as [Hlj|Hlj]; [|lia].
  rewrite <- Heq in Hlj.
  pose proof (proj1 (NoDup_alt encodeStd) Hnd _ _ _ Hli Hlj). lia.
Qed.

(** The blocks of [Encode], group by group. *)
Lemma Encode_block (x y z u v : Z) (rest : list Z) :
  Encode (x :: y :: z :: u :: v :: rest) =
    [encChar (g0 x); encChar (g1 x y); encChar (g2 y); encChar (g3 y z);
     encChar (g4 z u); encChar (g5 u); encChar (g6 u v); encChar (g7 v)]
    ++ Encode rest.
Proof. reflexivity. Qed.

Lemma Encode_one (x : Z) :
  Encode [x] =
    [encChar (g0 x); encChar (g1 x 0); padChar; padChar; padChar; padChar;
     padChar; padChar].
Proof. reflexivity. Qed.

Lemma Encode_two (x y : Z) :
  Encode [x; y] =
    [encChar (g0 x); encChar (g1 x y); encChar (g2 y); encChar (g3 y 0);
     padChar; padChar; padChar; padChar].
Proof. reflexivity. Qed.

Lemma Encode_three (x y z : Z) :
  Encode [x; y; z] =
    [encChar (g0 x); encChar (g1 x y); encChar (g2 y); encChar (g3 y z);
     encChar (g4 z 0); padChar; padChar; padChar].
Proof. reflexivity. Qed.

Lemma Encode_four (x y z u : Z) :
  Encode [x; y; z; u] =
    [encChar (g0 x); encChar (g1 x y); encChar (g2 y); encChar (g3 y z);
     encChar (g4 z u); encChar (g5 u); encChar (g6 u 0); padChar].
Proof. reflexivity. Qed.

Ltac byte_side := first [assumption | exact zero_is_byte].

Ltac group_range :=
  match goal with
  | |- 0 <= g0 ?a < 32 =>
      exact (proj1 (group_ranges a 0 ltac:(byte_side) zero_is_byte))
  | |- 0 <= g1 ?a ?b < 32 =>
      exact (proj1 (proj2 (group_ranges a b ltac:(byte_side) ltac:(byte_side))))
  | |- 0 <= g2 ?a < 32 =>
      exact (proj1 (proj2 (proj2 (group_ranges a 0 ltac:(byte_side) zero_is_byte))))
  | |- 0 <= g3 ?a ?b < 32 =>
      exact (proj1 (proj2 (proj2 (proj2
               (group_ranges a b ltac:(byte_side) ltac:(byte_side))))))
  | |- 0 <= g4 ?a ?b < 32 =>
      exact (proj1 (proj2 (proj2 (proj2 (proj2
               (group_ranges a b ltac:(byte_side) ltac:(byte_side)))))))
  | |- 0 <= g5 ?a < 32 =>
      exact (proj1 (proj2 (proj2 (proj2 (proj2 (proj2
               (group_ranges a 0 ltac:(byte_side) zero_is_byte)))))))
  | |- 0 <= g6 ?a ?b < 32 =>
      exact (proj1 (proj2 (proj2 (proj2 (proj2 (proj2 (proj2
               (group_ranges a b ltac:(byte_side) ltac:(byte_side)))))))))
  | |- 0 <= g7 ?a < 32 =>
      exact (proj2 (proj2 (proj2 (proj2 (proj2 (proj2 (proj2
               (group_ranges a 0 ltac:(byte_side) zero_is_byte))))))))
  end.

Ltac groups_of_chars :=
  repeat match goal with
         | H : encChar _ = encChar _ |- _ =>
             apply encChar_inj in H; [|group_range|group_range]
         end.

Ltac split_bytes :=
  repeat match goal with
         | H : Forall is_byte (_ :: _) |- _ =>
             apply Forall_cons_1 in H; destruct H as [? H]
         end.

Lemma Encode_length (src : list Z) :
  length (Encode src) = (8 * ((length src + 4) / 5))%nat.
Proof.
  remember (length src) as n eqn:Hn. revert src Hn.
  induction n as [n IH] using lt_wf_ind. intros src Hn.
  destruct src as [|x [|y [|z [|u [|v rest]]]]]; subst n; try reflexivity.
  rewrite Encode_block, length_app, (IH (length rest)) by (simpl; lia || reflexivity).
  change (length (x :: y :: z :: u :: v :: rest)) with (5 + length rest)%nat.
  replace (5 + length rest + 4)%nat with (length rest + 4 + 1 * 5)%nat by lia.
  rewrite Nat.div_add by lia. simpl length. lia.
Qed.

(** The encoding tells byte strings of one length apart. *)
Lemma Encode_inj (src1 src2 : list Z) :
  Forall is_byte src1 -> Forall is_byte src2 ->
  length src1 = length src2 ->
  Encode src1 = Encode src2 -> src1 = src2.
Proof.
  remember (length src1) as n eqn:Hn. revert src1 src2 Hn.
  induction n as [n IH] using lt_wf_ind. intros src1 src2 Hn H1 H2 Hlen Henc.
  rewrite Hn in Hlen.
  destruct src1 as [|x [|y [|z [|u [|v rest]]]]];
    destruct src2 as [|x' [|y' [|z' [|u' [|v' rest']]]]];
    try discriminate Hlen; try reflexivity;
    split_bytes.
  - rewrite !Encode_one in Henc. injection Henc as E0 E1. groups_of_chars.
    f_equal. rewrite <- (decode_first x 0), <- (decode_first x' 0) by byte_side.
    congruence.
  - rewrite !Encode_two in Henc. injection Henc as E0 E1 E2 E3. groups_of_chars.
    f_equal; [|f_equal].
    + rewrite <- (decode_first x y), <- (decode_first x' y') by byte_side. congruence.
    + rewrite <- (decode_second x y 0), <- (decode_second x' y' 0) by byte_side.
      congruence.
  - rewrite !Encode_three in Henc. injection Henc as E0 E1 E2 E3 E4. groups_of_chars.
    f_equal; [|f_equal; [|f_equal]].
    + rewrite <- (decode_first x y), <- (decode_first x' y') by byte_side. congruence.
    + rewrite <- (decode_second x y z), <- (decode_second x' y' z') by byte_side.
      congruence.
    + rewrite <- (decode_third y z 0), <- (decode_third y' z' 0) by byte_side.
      congruence.
  - rewrite !Encode_four in Henc. injection Henc as E0 E1 E2 E3 E4 E5 E6.
    groups_of_chars.
    f_equal; [|f_equal; [|f_equal; [|f_equal]]].
    + rewrite <- (decode_first x y), <- (decode_first x' y') by byte_side. congruence.
    + rewrite <- (decode_second x y z), <- (decode_second x' y' z') by byte_side.
      congruence.
    + rewrite <- (decode_third y z u), <- (decode_third y' z' u') by byte_side.
      congruence.
    + rewrite <- (decode_fourth z u 0), <- (decode_fourth z' u' 0) by byte_side.
      congruence.
  - rewrite !Encode_block in Henc.
    injection Henc as E0 E1 E2 E3 E4 E5 E6 E7 Erest. groups_of_chars.
    assert (rest = rest') as ->.
    { apply (IH (length rest)); subst n; simpl in *; try lia; auto. }
    f_equal; [|f_equal; [|f_equal; [|f_equal; [|f_equal]]]].
    + rewrite <- (decode_first x y), <- (decode_first x' y') by byte_side. congruence.
    + rewrite <- (decode_second x y z), <- (decode_second x' y' z') by byte_side.
      congruence.
    + rewrite <- (decode_third y z u), <- (decode_third y' z' u') by byte_side.
      congruence.
    + rewrite <- (decode_fourth z u v), <- (decode_fourth z' u' v') by byte_side.
      congruence.
    + rewrite <- (decode_fifth u v), <- (decode_fifth u' v') by byte_side. congruence.
Qed.

Lemma byteZ_inj (a b : Byte.byte) : byteZ a = byteZ b -> a = b.
Proof.
  unfold byteZ. intros H. apply N2Z.inj in H.
  pose proof (Byte.of_to_N a) as Ha. rewrite H, Byte.of_to_N in Ha. congruence.
Qed.

Lemma map_byteZ_inj (k1 k2 : list Byte.byte) :
  map byteZ k1 = map byteZ k2 -> k1 = k2.
Proof.
  revert k2. induction k1 as [|a k1 IH]; intros [|b k2] H; try discriminate H.
  - reflexivity.
  - injection H as Hab Hrest. f_equal; [apply byteZ_inj, Hab|apply IH, Hrest].
Qed.

Lemma newSessionID_body (key : list Byte.byte) :
  exists body k,
    Encode (map byteZ key) = body ++ repeat padChar k /\
    list_ascii_of_string (newSessionID key) = body.
Proof.
  destruct (Encode_shape (map byteZ key)) as (body & k & Henc & Hbody & _).
  { apply Forall_map, Forall_forall. intros b _. apply byteZ_range. }
  exists body, k. split; [exact Henc|].
  unfold newSessionID, TrimRight, EncodeToString.
  rewrite !list_ascii_of_string_of_list_ascii, Henc.
  change (list_ascii_of_string "=") with [padChar].
  apply trim_right_body.
  eapply Forall_impl; [exact Hbody|]. intros c. apply alphabet_not_pad.
Qed.

Lemma newSessionID_inj (key1 key2 : list Byte.byte) :
  length key1 = length key2 ->
  newSessionID key1 = newSessionID key2 -> key1 = key2.
Proof.
  intros Hlen Hid.
  destruct (newSessionID_body key1) as (body1 & k1 & Henc1 & Hb1).
  destruct (newSessionID_body key2) as (body2 & k2 & Henc2 & Hb2).
  assert (Hbody : body2 = body1) by congruence. rewrite Hbody in Henc2.
  clear Hb1 Hb2 Hbody.
  assert (Hk : k1 = k2).
  { pose proof (Encode_length (map byteZ key1)) as L1.
    pose proof (Encode_length (map byteZ key2)) as L2.
    rewrite Henc1, length_app, repeat_length, length_map in L1.
    rewrite Henc2, length_app, repeat_length, length_map in L2.
    rewrite Hlen in L1. lia. }
  subst k2. apply map_byteZ_inj, Encode_inj.
  - apply Forall_map, Forall_forall. intros b _. apply byteZ_range.
  - apply Forall_map, Forall_forall. intros b _. apply byteZ_range.
  - rewrite !length_map. exact Hlen.
  - congruence.
Qed.

(** X27: Different keys give different identifiers.  When two sessions without
    identifier are saved with success, off the delete path, under random
    keys of one length, and end up with the same identifier, the two keys
    were the same: the encoding and the trimming of the padding lose
    nothing of the key. *)
Theorem Save_identifier_determines_the_key
    {lib : Collaborators} (m1 m2 : SQLStore) (now1 now2 : Z)
    (key1 key2 : list Byte.byte) (st1 st2 st1' st2' : State) :
  0 <= CookieOptionsMaxAge (ctx st1) ->
  0 <= CookieOptionsMaxAge (ctx st2) ->
  ID (session st1) = "" ->
  ID (session st2) = "" ->
  length key1 = length key2 ->
  Save m1 now1 key1 st1 = (Done, st1') ->
  Save m2 now2 key2 st2 = (Done, st2') ->
  ID (session st1') = ID (session st2') ->
  key1 = key2.
Proof.
  intros Ha1 Ha2 Hi1 Hi2 Hlen Hs1 Hs2 Hid.
  rewrite (Save_new_identifier m1 now1 key1 st1 st1' Ha1 Hi1 Hs1) in Hid.
  rewrite (Save_new_identifier m2 now2 key2 st2 st2' Ha2 Hi2 Hs2) in Hid.
  exact (newSessionID_inj key1 key2 Hlen Hid).
Qed.

Lemma Save_identifier_determines_the_key_witness :
  zeroKey = repeat Byte.x00 32.
Proof.
  apply (Save_identifier_determines_the_key sampleStore sampleStore 1000 2000
           zeroKey (repeat Byte.x00 32) (freshState 0 ∅) (freshState 0 sampleValues)
           (snd (Save sampleStore 1000 zeroKey (freshState 0 ∅)))
           (snd (Save sampleStore 2000 (repeat Byte.x00 32) (freshState 0 sampleValues)))).
  - vm_compute. discriminate.
  - vm_compute. discriminate.
  - reflexivity.
  - reflexivity.
  - reflexivity.
  - vm_compute. reflexivity.
  - vm_compute. reflexivity.
  - vm_compute. reflexivity.
Defined.
